(** * Shift search of the stitching stage ([iss/stitch/shift.py])

    A shallow embedding of [shift_score], [extend_array], [refined_shifts],
    [get_best_shift] and [compute_shift].

    Number model.  Candidate offsets and every quantity the grid arithmetic
    touches ([np.arange], [np.ceil], [np.mean], equality of rows) are exact
    rationals [Q]; point clouds handed to [compute_shift] are integer arrays
    ([Z] rows), as its docstring says; scores, the score threshold and
    [min_score] are real numbers [R], because they go through [sqrt] and
    [exp].  Rounding, overflow and nan of float64 are outside the model.
    Where a statement would depend on them it is worded so as to hold of
    float64 as well: the underflow of [np.exp] has definitions of its own
    ([np_exp], [kernel64], [shift_score64]), and statements that rest on
    exact arithmetic are made of integers of magnitude at most 2^53, which
    float64 represents exactly.
*)

From Stdlib Require Import String.
From Stdlib Require Import ZArith QArith Qround Qreals Reals Psatz List Bool.
From Stdlib Require Import Sorting.Permutation Sorting.Sorted.
Import ListNotations.

Set Implicit Arguments.

(* ------------------------------------------------------------------ *)
(** ** Exceptions and the error monad *)

(** [ValueError] is the only exception class the modelled paths raise
    (numpy's and scikit-learn's argument checks and the explicit [raise] of
    [extend_array]).  [DegenerateInputError] belongs to the error taxonomy
    of the specification; no path of the source raises it.  [NonFinite]
    marks the one place where numpy would go on with nan (a division by a
    zero [z_scale]); the model stops there. *)
Inductive exn : Type :=
| ValueError
| DegenerateInputError
| NonFinite.

Inductive result (A : Type) : Type :=
| Ok (a : A)
| Err (e : exn).

Arguments Ok {A} a.
Arguments Err {A} e.

Definition bind {A B : Type} (m : result A) (k : A -> result B) : result B :=
  match m with
  | Ok a => k a
  | Err e => Err e
  end.

Declare Scope result_scope.
Delimit Scope result_scope with result.
Notation "x <- m ;; k" := (bind m (fun x => k))
  (at level 61, m at next level, right associativity) : result_scope.
Notation "' p <- m ;; k" := (bind m (fun p => k))
  (at level 61, p pattern, m at next level, right associativity) : result_scope.
Open Scope result_scope.

Fixpoint mapM {A B : Type} (f : A -> result B) (l : list A) : result (list B) :=
  match l with
  | [] => Ok []
  | a :: l' => b <- f a ;; bs <- mapM f l' ;; Ok (b :: bs)
  end.

(* ------------------------------------------------------------------ *)
(** ** One-dimensional arrays of candidate offsets *)

Definition array := list Q.

(** A row of an [n x 3] array: (y, x, z). *)
Record row (A : Type) : Type := Row { ry : A; rx : A; rz : A }.
Arguments Row {A} ry rx rz.

Definition qrow := row Q.
Definition zrow := row Z.

Definition Qsum (l : list Q) : Q := fold_right Qplus 0%Q l.

(** [np.ediff1d]: differences of consecutive elements. *)
Fixpoint ediff1d (a : array) : array :=
  match a with
  | x :: ((y :: _) as tl) => (y - x)%Q :: ediff1d tl
  | _ => []
  end.

(** [np.mean]; [None] stands for the nan numpy gives on an empty array. *)
Definition mean (a : array) : option Q :=
  match a with
  | [] => None
  | _ => Some (Qsum a / inject_Z (Z.of_nat (length a)))%Q
  end.

(** [array.min()] and [array.max()]; an empty array raises [ValueError]. *)
Definition Qmin (a b : Q) : Q := if Qle_bool a b then a else b.
Definition Qmax (a b : Q) : Q := if Qle_bool a b then b else a.

Definition array_min (a : array) : result Q :=
  match a with
  | [] => Err ValueError
  | x :: l => Ok (fold_left Qmin l x)
  end.

Definition array_max (a : array) : result Q :=
  match a with
  | [] => Err ValueError
  | x :: l => Ok (fold_left Qmax l x)
  end.

(** [np.arange(start, stop, step)] on floats: [ceil((stop - start) / step)]
    elements [start + i * step].  A zero step makes the length nan or
    infinite, which numpy reports as [ValueError]. *)
Definition arange (start stop step : Q) : result array :=
  if Qeq_bool step 0 then Err ValueError
  else
    let len := Z.to_nat (Qceiling ((stop - start) / step)) in
    Ok (map (fun i => (start + inject_Z (Z.of_nat i) * step)%Q) (seq 0 len)).

Inductive direction : Type :=
| below
| above
| both
| other (s : string).

(** The [direction] argument is a Python string. *)
Definition direction_of_string (s : string) : direction :=
  if String.eqb s "below" then below
  else if String.eqb s "above" then above
  else if String.eqb s "both" then both
  else other s.

(** [extend_array(array, extend_scale, direction)]. *)
Definition extend_array (a : array) (extend_scale : Z) (dir : string)
  : result array :=
  if (extend_scale =? 0)%Z then Ok a
  else
    match mean (ediff1d a) with
    | None =>
        (* step is nan: a.min() fails on an empty array, and otherwise
           np.arange cannot compute a length *)
        Err ValueError
    | Some step =>
        let k := inject_Z extend_scale in
        lo <- array_min a ;;
        ext_below <- arange (lo - k * step) lo step ;;
        hi <- array_max a ;;
        ext_above <- arange (hi + step) (hi + k * step + step / 2) step ;;
        match direction_of_string dir with
        | below => Ok (ext_below ++ a)
        | above => Ok (a ++ ext_above)
        | both => Ok (ext_below ++ a ++ ext_above)
        | other _ => Err ValueError
        end
    end.

(** [refined_shifts(shifts, best_shift, refined_scale, extend_scale)].
    [np.ceil(refined_scale * step).astype(int)] is [Qceiling]. *)
Definition refined_shifts (shifts : array) (best_shift : Q)
    (refined_scale : Q) (extend_scale : Z) : result array :=
  if (length shifts =? 1)%nat then Ok shifts
  else
    match mean (ediff1d shifts) with
    | None => Err ValueError
    | Some step =>
        let refined_step := inject_Z (Qceiling (refined_scale * step)) in
        let k := inject_Z extend_scale in
        arange (best_shift - k * step)
               (best_shift + k * step + refined_step / 2) refined_step
    end.

(** Default arguments of [refined_shifts], and the two scales
    [compute_shift] passes. *)
Definition half_scale : Q := 1 # 2.
Definition tiny_scale : Q := 1 # (10 ^ 50).

Definition ints (l : list Z) : array := map inject_Z l.

(* ------------------------------------------------------------------ *)
(** ** Grids of candidate shifts *)

Definition cloud := list qrow.

Definition row_add (p s : qrow) : qrow :=
  Row (ry p + ry s)%Q (rx p + rx s)%Q (rz p + rz s)%Q.

(** Rows are compared by value, as numpy compares floats. *)
Definition row_eqb (r s : qrow) : bool :=
  Qeq_bool (ry r) (ry s) && Qeq_bool (rx r) (rx s) && Qeq_bool (rz r) (rz s).

Definition row_compare (r s : qrow) : comparison :=
  match (ry r ?= ry s)%Q with
  | Eq => match (rx r ?= rx s)%Q with
          | Eq => (rz r ?= rz s)%Q
          | c => c
          end
  | c => c
  end.

Definition row_mem (r : qrow) (l : list qrow) : bool := existsb (row_eqb r) l.

(** [np.array(np.meshgrid(y, x, z)).T.reshape(-1, 3)]: with the default
    'xy' indexing the three grids have shape (len x, len y, len z); after
    the transpose and the row-major reshape, z varies slowest and x fastest,
    and every row reads (y, x, z). *)
Definition meshgrid_rows (y_shifts x_shifts z_shifts : array) : list qrow :=
  flat_map (fun z =>
    flat_map (fun y =>
      map (fun x => Row y x z) x_shifts) y_shifts) z_shifts.

Fixpoint insert_row (r : qrow) (l : list qrow) : list qrow :=
  match l with
  | [] => [r]
  | h :: t =>
      match row_compare r h with
      | Lt => r :: l
      | Eq => l
      | Gt => h :: insert_row r t
      end
  end.

(** Modelled from the spec: [setdiff2d] of [utils/base.py], which is not
    among the sources.  The specification describes it as an explicit set
    difference over candidate grids, to be implemented as a sorted-array set
    difference: the rows of the first array that are no row of the second,
    each once, in lexicographic order.  The docstring of [get_best_shift]
    says the same of its use: [ignore_shifts] 'contains yxz shifts to not
    search over'. *)
Definition setdiff2d (array1 array2 : list qrow) : list qrow :=
  fold_right insert_row []
    (filter (fun r => negb (row_mem r array2)) array1).

(** The rows [get_best_shift] scores. *)
Definition searched_shifts (y_shifts x_shifts z_shifts : array)
    (ignore_shifts : option (list qrow)) : list qrow :=
  let all_shifts := meshgrid_rows y_shifts x_shifts z_shifts in
  match ignore_shifts with
  | None => all_shifts
  | Some ig => setdiff2d all_shifts ig
  end.

(* ------------------------------------------------------------------ *)
(** ** Nearest neighbours and the score *)

Open Scope R_scope.

Definition Rsum (l : list R) : R := fold_right Rplus 0 l.

Definition sq_distance (p t : qrow) : R :=
  (Q2R (ry p) - Q2R (ry t))² + (Q2R (rx p) - Q2R (rx t))²
  + (Q2R (rz p) - Q2R (rz t))².

Definition euclidean (p t : qrow) : R := sqrt (sq_distance p t).

(** [sklearn.neighbors.NearestNeighbors(n_neighbors=1)]: the fitted
    estimator keeps the training cloud; [fit] and [kneighbors] both reject
    an array without rows ([check_array] raises [ValueError]). *)
Record NearestNeighbors : Type := Fitted { fit_X : cloud }.

Definition fit (X : cloud) : result NearestNeighbors :=
  match X with
  | [] => Err ValueError
  | _ => Ok (Fitted X)
  end.

Definition nearest_distance (X : cloud) (p : qrow) : R :=
  match X with
  | [] => 0
  | t :: X' => fold_left Rmin (map (euclidean p) X') (euclidean p t)
  end.

Definition kneighbors (nbrs : NearestNeighbors) (X : cloud) : result (list R) :=
  match X with
  | [] => Err ValueError
  | _ => Ok (map (nearest_distance (fit_X nbrs)) X)
  end.

(** The contribution of one neighbour pair to the score. *)
Definition kernel (thresh d : R) : R := exp (- d² / (2 * thresh²)).

(** [shift_score(distances, thresh)]. *)
Definition shift_score (distances : list R) (thresh : R) : R :=
  Rsum (map (kernel thresh) distances).

(** Line 17 as float64 computes it, as far as underflow goes.  [np.exp]
    returns a double: a value of at most 2^-1075, half the smallest
    positive double, comes back as 0.0.  [np_exp] has this and nothing else
    of the rounding (its argument is never positive here); [kernel64] and
    [shift_score64] are [kernel] and [shift_score] with [np_exp] for [exp]. *)
Definition float64_tiny : R := / 2 ^ 1075.

Definition np_exp (x : R) : R :=
  if Rle_dec (exp x) float64_tiny then 0 else exp x.

Definition kernel64 (thresh d : R) : R := np_exp (- d² / (2 * thresh²)).

Definition shift_score64 (distances : list R) (thresh : R) : R :=
  Rsum (map (kernel64 thresh) distances).

(* ------------------------------------------------------------------ *)
(** ** Order statistics of the scores *)

Definition Rltb (a b : R) : bool := if Rlt_dec a b then true else false.

Fixpoint argmax_from (best_i : nat) (best : R) (i : nat) (l : list R) : nat :=
  match l with
  | [] => best_i
  | x :: l' =>
      if Rltb best x then argmax_from i x (S i) l'
      else argmax_from best_i best (S i) l'
  end.

(** [score.argmax()]: the first index of the largest entry; an empty array
    raises [ValueError]. *)
Definition argmax (l : list R) : result nat :=
  match l with
  | [] => Err ValueError
  | x :: l' => Ok (argmax_from 0 x 1 l')
  end.

Fixpoint insert_sorted (x : R) (l : list R) : list R :=
  match l with
  | [] => [x]
  | h :: t => if Rltb h x then h :: insert_sorted x t else x :: l
  end.

Definition sort (l : list R) : list R := fold_right insert_sorted [] l.

(** [np.median]. *)
Definition median (l : list R) : R :=
  let s := sort l in
  let n := length s in
  if Nat.even n then (nth (n / 2 - 1) s 0 + nth (n / 2) s 0) / 2
  else nth (n / 2) s 0.

(** [np.percentile(l, 25 * quarter)] with the default linear interpolation:
    position [quarter * (n - 1) / 4] in the sorted array. *)
Definition quartile (quarter : nat) (l : list R) : R :=
  let s := sort l in
  let n := length s in
  let pos4 := (quarter * (n - 1))%nat in
  let lo := (pos4 / 4)%nat in
  let hi := Nat.min (S lo) (n - 1) in
  nth lo s 0 + INR (pos4 mod 4) / 4 * (nth hi s 0 - nth lo s 0).

(** [scipy.stats.iqr]. *)
Definition iqr (l : list R) : R := quartile 3 l - quartile 1 l.

(* ------------------------------------------------------------------ *)
(** ** [get_best_shift] *)

(** Score of one candidate: the body of the loop. *)
Definition candidate_score (nbrs : NearestNeighbors) (yxz_base : cloud)
    (score_thresh : R) (s : qrow) : result R :=
  distances <- kneighbors nbrs (map (fun p => row_add p s) yxz_base) ;;
  Ok (shift_score distances score_thresh).

Definition zero_row : qrow := Row 0%Q 0%Q 0%Q.

Definition get_best_shift (yxz_base yxz_transform : cloud) (score_thresh : R)
    (y_shifts x_shifts z_shifts : array) (ignore_shifts : option (list qrow))
  : result (qrow * R * R * R) :=
  let all_shifts := searched_shifts y_shifts x_shifts z_shifts ignore_shifts in
  nbrs <- fit yxz_transform ;;
  score <- mapM (candidate_score nbrs yxz_base score_thresh) all_shifts ;;
  best_shift_ind <- argmax score ;;
  Ok (nth best_shift_ind all_shifts zero_row, nth best_shift_ind score 0,
      median score, iqr score).

(* ------------------------------------------------------------------ *)
(** ** [compute_shift] *)

(** Conversion of a float to an integer ([astype(int)], and the cast numpy
    applies when a float is stored into an integer array): truncation
    towards zero. *)
Definition Qtrunc (q : Q) : Z := Z.quot (Qnum q) (Z.pos (Qden q)).

Definition astype_int (r : qrow) : zrow :=
  Row (Qtrunc (ry r)) (Qtrunc (rx r)) (Qtrunc (rz r)).

Definition to_float (r : zrow) : qrow :=
  Row (inject_Z (ry r)) (inject_Z (rx r)) (inject_Z (rz r)).

(** [a[:, 2] = a[:, 2] * z_scale] on an integer array [a]. *)
Definition scale_z_inplace (z_scale : Q) (a : list zrow) : list zrow :=
  map (fun r => Row (ry r) (rx r) (Qtrunc (inject_Z (rz r) * z_scale))) a.

(** [z_shifts * z_scale]. *)
Definition scaled (z_shifts : array) (z_scale : Q) : array :=
  map (fun z => (z * z_scale)%Q) z_shifts.

(** [shift[2] / z_scale]. *)
Definition unscale (v z_scale : Q) : result Q :=
  if Qeq_bool z_scale 0 then Err NonFinite else Ok (v / z_scale)%Q.

(** The local variables that the phases of [compute_shift] hand on. *)
Record search_state : Type := State {
  shift : qrow;
  score : R;
  y_shifts : array;
  x_shifts : array;
  z_shifts : array
}.

(** Line 158: [score < min_score and np.max([y_widen, x_widen, z_widen]) > 0]. *)
Definition widen_wanted (score min_score : R) (y_widen x_widen z_widen : Z) : bool :=
  Rltb score min_score && (0 <? Z.max (Z.max y_widen x_widen) z_widen)%Z.

(** Lines 158-164: the widened search. *)
Definition widen_phase (yxz_base yxz_transform : cloud) (shift_score_thresh : R)
    (initial_shifts : list qrow) (min_score : R)
    (y_widen x_widen z_widen : Z) (z_scale : Q) (st : search_state)
  : result search_state :=
  if widen_wanted (score st) min_score y_widen x_widen z_widen then
    ys <- extend_array (y_shifts st) y_widen "both" ;;
    xs <- extend_array (x_shifts st) x_widen "both" ;;
    zs <- extend_array (z_shifts st) z_widen "both" ;;
    '(shift, score, _, _) <-
      get_best_shift yxz_base yxz_transform shift_score_thresh
        ys xs (scaled zs z_scale) (Some initial_shifts) ;;
    Ok (State shift score ys xs zs)
  else Ok st.

(** Lines 165-180: the two refinements and the unscaling of z. *)
Definition refine_phase (yxz_base yxz_transform : cloud) (shift_score_thresh : R)
    (initial_shifts : list qrow) (min_score : R) (z_scale : Q)
    (st : search_state) : result (qrow * R) :=
  if Rltb min_score (score st) then
    (* refined search near maxima with half the step *)
    ys <- refined_shifts (y_shifts st) (ry (shift st)) half_scale 2 ;;
    xs <- refined_shifts (x_shifts st) (rx (shift st)) half_scale 2 ;;
    z0 <- unscale (rz (shift st)) z_scale ;;
    zs <- refined_shifts (z_shifts st) z0 half_scale 2 ;;
    '(shift2, score2, _, _) <-
      get_best_shift yxz_base yxz_transform shift_score_thresh
        ys xs (scaled zs z_scale) (Some initial_shifts) ;;
    let shift := if Rltb (score st) score2 then shift2 else shift st in
    (* final search with a step of 1 *)
    ys <- refined_shifts ys (ry shift) tiny_scale 1 ;;
    xs <- refined_shifts xs (rx shift) tiny_scale 1 ;;
    z0 <- unscale (rz shift) z_scale ;;
    zs <- refined_shifts zs z0 tiny_scale 1 ;;
    '(shift, score, _, _) <-
      get_best_shift yxz_base yxz_transform shift_score_thresh
        ys xs (scaled zs z_scale) (Some initial_shifts) ;;
    z0 <- unscale (rz shift) z_scale ;;
    Ok (Row (ry shift) (rx shift) z0, score)
  else Ok (shift st, score st).

(** Lines 155-181: what follows the coarse search, for the [min_score] in
    force. *)
Definition after_coarse (yxz_base yxz_transform : cloud) (min_score : R)
    (shift_score_thresh : R) (y_shifts x_shifts z_shifts : array)
    (y_widen x_widen z_widen : Z) (z_scale : Q) (shift : qrow) (score : R)
  : result (zrow * R * R) :=
  let initial_shifts := meshgrid_rows y_shifts x_shifts (scaled z_shifts z_scale) in
  st <- widen_phase yxz_base yxz_transform shift_score_thresh initial_shifts
          min_score y_widen x_widen z_widen z_scale
          (State shift score y_shifts x_shifts z_shifts) ;;
  '(shift, score) <-
    refine_phase yxz_base yxz_transform shift_score_thresh initial_shifts
      min_score z_scale st ;;
  Ok (astype_int shift, score, min_score).

(** Lines 152-181, on the arrays as lines 150-151 left them. *)
Definition search (yxz_base yxz_transform : cloud) (min_score : option R)
    (min_score_auto_param shift_score_thresh : R)
    (y_shifts x_shifts z_shifts : array) (y_widen x_widen z_widen : Z)
    (z_scale : Q) : result (zrow * R * R) :=
  '(shift, score, score_median, score_iqr) <-
    get_best_shift yxz_base yxz_transform shift_score_thresh
      y_shifts x_shifts (scaled z_shifts z_scale) None ;;
  let min_score :=
    match min_score with
    | None => score_median + min_score_auto_param * score_iqr
    | Some m => m
    end in
  after_coarse yxz_base yxz_transform min_score shift_score_thresh
    y_shifts x_shifts z_shifts y_widen x_widen z_widen z_scale shift score.

(** What a call leaves behind: the two argument arrays, which the function
    writes to, and the returned triple or the exception. *)
Record outcome : Type := Outcome {
  base_after : list zrow;
  transform_after : list zrow;
  returned : result (zrow * R * R)
}.

Definition compute_shift (yxz_base yxz_transform : list zrow)
    (min_score : option R) (min_score_auto_param shift_score_thresh : R)
    (y_shifts x_shifts z_shifts : array) (y_widen x_widen z_widen : Z)
    (z_scale : Q) : outcome :=
  let yxz_base := scale_z_inplace z_scale yxz_base in
  let yxz_transform := scale_z_inplace z_scale yxz_transform in
  Outcome yxz_base yxz_transform
    (search (map to_float yxz_base) (map to_float yxz_transform)
       min_score min_score_auto_param shift_score_thresh
       y_shifts x_shifts z_shifts y_widen x_widen z_widen z_scale).


(* ------------------------------------------------------------------ *)
(** ** Vocabulary of the statements *)

(** The score of a candidate as the specification words it: the sum over
    the base points of the kernel at the distance from the translated point
    to its nearest neighbour in the target cloud. *)
Definition score_at (yxz_base yxz_transform : cloud) (thresh : R) (s : qrow) : R :=
  Rsum (map (fun p => kernel thresh (nearest_distance yxz_transform (row_add p s)))
            yxz_base).

(** The scores of all searched candidates, in search order. *)
Definition grid_scores (base tr : cloud) (thresh : R) (ys xs zs : array)
    (ignore_shifts : option (list qrow)) : list R :=
  map (score_at base tr thresh) (searched_shifts ys xs zs ignore_shifts).

Definition ignored (r : qrow) (ignore_shifts : option (list qrow)) : bool :=
  match ignore_shifts with
  | None => false
  | Some ig => row_mem r ig
  end.

Definition recognised (dir : string) : Prop :=
  dir = "below"%string \/ dir = "above"%string \/ dir = "both"%string.

(** An array of [n] equally spaced values: [a0], [a0 + step], ... *)
Definition is_uniform (a : array) (a0 step : Q) (n : nat) : Prop :=
  length a = n /\
  forall i, (i < n)%nat -> (nth i a 0 == a0 + inject_Z (Z.of_nat i) * step)%Q.

(** Squared distance computed in [Q], and the squared distance from a
    translated base point to a target point. *)
Definition sq_distance_Q (p t : qrow) : Q :=
  ((ry p - ry t) * (ry p - ry t) + (rx p - rx t) * (rx p - rx t)
   + (rz p - rz t) * (rz p - rz t))%Q.

Definition closeness (b t c : qrow) : Q := sq_distance_Q (row_add b c) t.

(** First index of the smallest entry: [argmax_from] mirrored on [Q]. *)
Fixpoint argmin_from (best_i : nat) (best : Q) (i : nat) (l : list Q) : nat :=
  match l with
  | [] => best_i
  | x :: l' =>
      if negb (Qle_bool best x) then argmin_from i x (S i) l'
      else argmin_from best_i best (S i) l'
  end.

Definition argmin (l : list Q) : nat :=
  match l with
  | [] => 0%nat
  | x :: l' => argmin_from 0 x 1 l'
  end.

(** For one base point [b] and one target point [t]: the first candidate
    that brings [b] closest to [t]. *)
Definition closest (b t : qrow) (l : list qrow) : qrow :=
  nth (argmin (map (closeness b t) l)) l zero_row.



(** An axis of [n] integers [a0], [a0 + s], ... in steps of [s >= 1]; all
    of them, and the [w] values that an extension adds at either end, are
    integers that float64 represents exactly. *)
Definition integer_axis (a : array) (a0 s : Z) (n : nat) (w : Z) : Prop :=
  is_uniform a (inject_Z a0) (inject_Z s) n /\ (1 <= s)%Z /\
  (Z.abs a0 + (Z.of_nat n + 2 * Z.abs w) * s <= 2 ^ 53)%Z.



(** A cloud moved by [v]: every point plus [v]. *)
Definition translate (v : qrow) (c : cloud) : cloud :=
  map (fun p => row_add p v) c.


(** [p] lies on a point of the cloud [X]. *)
Definition coincides (X : cloud) (p : qrow) : Prop :=
  exists t, In t X /\ row_eqb p t = true.


(* ------------------------------------------------------------------ *)
(** * Properties *)

(** ** The kernel and [shift_score] *)

Section Kernel.
Variable thresh : R.
Hypothesis thresh_pos : 0 < thresh.

Lemma two_thresh_sq_pos : 0 < 2 * thresh².
Proof. unfold Rsqr. nra. Qed.

Lemma kernel_at_zero : kernel thresh 0 = 1.
Proof.
  unfold kernel. rewrite Rsqr_0, Ropp_0. unfold Rdiv.
  rewrite Rmult_0_l. apply exp_0.
Qed.

Lemma kernel_pos (d : R) : 0 < kernel thresh d.
Proof. unfold kernel. apply exp_pos. Qed.

Lemma kernel_of_sq (a b : R) :
  a² < b² -> kernel thresh b < kernel thresh a.
Proof.
  intros H. unfold kernel. apply exp_increasing.
  pose proof two_thresh_sq_pos as Hp.
  unfold Rdiv. apply Rmult_lt_compat_r.
  - apply Rinv_0_lt_compat. exact Hp.
  - lra.
Qed.

Lemma kernel_decreasing (d1 d2 : R) :
  0 <= d1 -> d1 < d2 -> kernel thresh d2 < kernel thresh d1.
Proof.
  intros H0 H. apply kernel_of_sq. unfold Rsqr. nra.
Qed.

Lemma kernel_le_one (d : R) : kernel thresh d <= 1.
Proof.
  destruct (Req_dec d 0) as [->|Hd].
  - rewrite kernel_at_zero. lra.
  - rewrite <- kernel_at_zero. left. apply kernel_of_sq.
    rewrite Rsqr_0. apply Rsqr_pos_lt. exact Hd.
Qed.

Lemma shift_score_app (l1 l2 : list R) :
  shift_score (l1 ++ l2) thresh = shift_score l1 thresh + shift_score l2 thresh.
Proof.
  unfold shift_score. induction l1 as [|a l1 IH]; simpl.
  - lra.
  - rewrite IH. lra.
Qed.

Lemma shift_score_cons (d : R) (l : list R) :
  shift_score (d :: l) thresh = kernel thresh d + shift_score l thresh.
Proof. reflexivity. Qed.

Lemma shift_score_le_count (distances : list R) :
  shift_score distances thresh <= INR (length distances).
Proof.
  induction distances as [|d l IH].
  - simpl. unfold shift_score. simpl. lra.
  - rewrite shift_score_cons. cbn [length]. rewrite S_INR.
    pose proof (kernel_le_one d). lra.
Qed.

Lemma shift_score_all_zero (n : nat) :
  shift_score (repeat 0 n) thresh = INR n.
Proof.
  induction n as [|n IH].
  - reflexivity.
  - cbn [repeat]. rewrite shift_score_cons, IH, kernel_at_zero, S_INR. lra.
Qed.

Lemma shift_score_pos (distances : list R) :
  distances <> [] -> 0 < shift_score distances thresh.
Proof.
  assert (Hnn : forall l, 0 <= shift_score l thresh).
  { induction l as [|d l IH].
    - unfold shift_score. simpl. lra.
    - rewrite shift_score_cons. pose proof (kernel_pos d). lra. }
  destruct distances as [|d l]; [congruence|]. intros _.
  rewrite shift_score_cons. pose proof (kernel_pos d). specialize (Hnn l). lra.
Qed.

(** The score reaches the number of points only when every distance is 0. *)
Lemma shift_score_full_zero (distances : list R) :
  Forall (fun d => 0 <= d) distances ->
  shift_score distances thresh = INR (length distances) ->
  Forall (fun d => d = 0) distances.
Proof.
  induction distances as [|d l IH]; intros Hnn Heq.
  - constructor.
  - inversion Hnn as [|? ? Hd Hl]; subst.
    rewrite shift_score_cons in Heq. cbn [length] in Heq. rewrite S_INR in Heq.
    pose proof (kernel_le_one d) as H1.
    pose proof (shift_score_le_count l) as H2.
    assert (Hk : kernel thresh d = 1) by lra.
    assert (Hs : shift_score l thresh = INR (length l)) by lra.
    constructor.
    + destruct (Req_dec d 0) as [|Hne]; [assumption|].
      exfalso. assert (0 < d) by lra.
      pose proof (kernel_decreasing (d1:=0) (d2:=d) (Rle_refl 0) H) as Hlt.
      rewrite kernel_at_zero in Hlt. lra.
    + apply IH; assumption.
Qed.
End Kernel.

(* ------------------------------------------------------------------ *)
(** ** Line 17 in float64: the underflow of [np.exp] *)

Lemma float64_tiny_pos : 0 < float64_tiny.
Proof. unfold float64_tiny. apply Rinv_0_lt_compat. apply pow_lt. lra. Qed.

Lemma float64_tiny_below_one : float64_tiny < 1.
Proof.
  unfold float64_tiny. rewrite <- Rinv_1.
  apply Rinv_lt_contravar.
  - rewrite Rmult_1_l. apply pow_lt. lra.
  - apply Rlt_pow_R1; [lra|lia].
Qed.

Lemma pow2_le_exp (n : nat) : 2 ^ n <= exp (INR n).
Proof.
  induction n as [|n IH].
  - simpl. rewrite exp_0. lra.
  - rewrite S_INR, exp_plus. cbn [pow].
    pose proof (exp_ineq1_le 1) as H1.
    pose proof (pow_lt 2 n ltac:(lra)) as Hp.
    rewrite (Rmult_comm 2).
    apply Rmult_le_compat; lra.
Qed.

Lemma np_exp_cases (x : R) :
  (exp x <= float64_tiny /\ np_exp x = 0) \/
  (float64_tiny < exp x /\ np_exp x = exp x).
Proof.
  unfold np_exp. destruct (Rle_dec (exp x) float64_tiny) as [H|H].
  - left. auto.
  - right. split; [lra|reflexivity].
Qed.

(** [kernel64] is [kernel] wherever it is not 0. *)
Lemma kernel64_exact_or_zero (thresh d : R) :
  kernel64 thresh d = kernel thresh d \/ kernel64 thresh d = 0.
Proof.
  unfold kernel64, kernel.
  destruct (np_exp_cases (- d² / (2 * thresh²))) as [(_ & E)|(_ & E)]; auto.
Qed.

Lemma np_exp_underflow (x : R) : x <= - INR 1075 -> np_exp x = 0.
Proof.
  intros H. destruct (np_exp_cases x) as [(_ & E)|(Hlt & _)]; [exact E|].
  exfalso.
  assert (Hx : exp x <= exp (- INR 1075)).
  { destruct H as [H| ->]; [left; apply exp_increasing; exact H|lra]. }
  rewrite exp_Ropp in Hx.
  assert (Hi : / exp (INR 1075) <= float64_tiny).
  { unfold float64_tiny. apply Rinv_le_contravar.
    - apply pow_lt. lra.
    - apply pow2_le_exp. }
  lra.
Qed.

Lemma np_exp_zero : np_exp 0 = 1.
Proof.
  destruct (np_exp_cases 0) as [(H & _)|(_ & E)].
  - rewrite exp_0 in H. pose proof float64_tiny_below_one. lra.
  - rewrite E. apply exp_0.
Qed.

Lemma np_exp_nonneg (x : R) : 0 <= np_exp x.
Proof.
  destruct (np_exp_cases x) as [(_ & ->)|(_ & ->)]; [lra|].
  left. apply exp_pos.
Qed.

Lemma np_exp_monotone (x y : R) : x <= y -> np_exp x <= np_exp y.
Proof.
  intros H.
  assert (He : exp x <= exp y).
  { destruct H as [H| ->]; [left; apply exp_increasing; exact H|lra]. }
  destruct (np_exp_cases x) as [(Hx & ->)|(Hx & ->)].
  - apply np_exp_nonneg.
  - destruct (np_exp_cases y) as [(Hy & ->)|(Hy & ->)]; lra.
Qed.

Lemma kernel64_at_zero (thresh : R) : kernel64 thresh 0 = 1.
Proof.
  unfold kernel64. rewrite Rsqr_0, Ropp_0. unfold Rdiv.
  rewrite Rmult_0_l. apply np_exp_zero.
Qed.

Lemma kernel64_antitone (thresh d1 d2 : R) :
  0 < thresh -> 0 <= d1 -> d1 <= d2 -> kernel64 thresh d2 <= kernel64 thresh d1.
Proof.
  intros Ht H0 H. unfold kernel64. apply np_exp_monotone.
  pose proof (two_thresh_sq_pos Ht) as Hp.
  unfold Rdiv. apply Rmult_le_compat_r.
  - left. apply Rinv_0_lt_compat. exact Hp.
  - unfold Rsqr. nra.
Qed.

Lemma kernel64_le_one (thresh d : R) : 0 < thresh -> kernel64 thresh d <= 1.
Proof.
  intros Ht. rewrite <- (kernel64_at_zero thresh).
  unfold kernel64. apply np_exp_monotone.
  pose proof (two_thresh_sq_pos Ht) as Hp.
  unfold Rdiv. apply Rmult_le_compat_r.
  - left. apply Rinv_0_lt_compat. exact Hp.
  - rewrite Rsqr_0. pose proof (Rle_0_sqr d). lra.
Qed.

Lemma shift_score64_app (l1 l2 : list R) (thresh : R) :
  shift_score64 (l1 ++ l2) thresh
  = shift_score64 l1 thresh + shift_score64 l2 thresh.
Proof.
  unfold shift_score64. induction l1 as [|a l1 IH]; simpl.
  - lra.
  - rewrite IH. lra.
Qed.

Lemma shift_score64_cons (d : R) (l : list R) (thresh : R) :
  shift_score64 (d :: l) thresh = kernel64 thresh d + shift_score64 l thresh.
Proof. reflexivity. Qed.

Lemma shift_score64_all_zero (n : nat) (thresh : R) :
  shift_score64 (repeat 0 n) thresh = INR n.
Proof.
  induction n as [|n IH].
  - reflexivity.
  - cbn [repeat]. rewrite shift_score64_cons, IH, kernel64_at_zero, S_INR. lra.
Qed.

Lemma shift_score64_le_count (distances : list R) (thresh : R) :
  0 < thresh -> shift_score64 distances thresh <= INR (length distances).
Proof.
  intros Ht. induction distances as [|d l IH].
  - unfold shift_score64. simpl. lra.
  - rewrite shift_score64_cons. cbn [length]. rewrite S_INR.
    pose proof (kernel64_le_one d Ht). lra.
Qed.

Lemma float64_range_pos (thresh : R) : / 2 ^ 500 <= thresh -> 0 < thresh.
Proof.
  intros H. assert (0 < / 2 ^ 500) by (apply Rinv_0_lt_compat, pow_lt; lra). lra.
Qed.

Lemma kernel_argument_le (thresh d c : R) :
  0 < thresh -> c * (2 * thresh²) <= d² -> - d² / (2 * thresh²) <= - c.
Proof.
  intros Ht H. pose proof (two_thresh_sq_pos Ht) as Hp. unfold Rdiv.
  replace (- c) with (- (c * (2 * thresh²)) * / (2 * thresh²)) by (field; lra).
  apply Rmult_le_compat_r; [left; apply Rinv_0_lt_compat; exact Hp|lra].
Qed.

Lemma np_exp_le_exp (x : R) : np_exp x <= exp x.
Proof.
  destruct (np_exp_cases x) as [(_ & ->)|(_ & ->)]; [left; apply exp_pos|lra].
Qed.

Lemma exp_minus_half : exp (- (1 / 2)) <= 2 / 3.
Proof.
  rewrite exp_Ropp. pose proof (exp_ineq1_le (1 / 2)) as H.
  assert (Hi : / exp (1 / 2) <= / (3 / 2)) by (apply Rinv_le_contravar; lra).
  lra.
Qed.

(** A point farther away than thresh contributes at most 2/3. *)
Lemma kernel64_beyond_thresh (thresh d : R) :
  0 < thresh -> thresh <= d -> kernel64 thresh d <= 2 / 3.
Proof.
  intros Ht Hd. unfold kernel64.
  apply (Rle_trans _ _ _ (np_exp_le_exp _)).
  apply (Rle_trans _ (exp (- (1 / 2)))); [|exact exp_minus_half].
  assert (H : - d² / (2 * thresh²) <= - (1 / 2)).
  { apply kernel_argument_le; [exact Ht|]. unfold Rsqr. nra. }
  destruct H as [H|H]; [left; apply exp_increasing; exact H|rewrite H; lra].
Qed.

(** A point farther away than 47 thresh contributes exactly 0. *)
Lemma kernel64_underflow (thresh d : R) :
  0 < thresh -> 47 * thresh <= d -> kernel64 thresh d = 0.
Proof.
  intros Ht Hd. unfold kernel64. apply np_exp_underflow.
  replace (INR 1075) with 1075 by (rewrite INR_IZR_INZ; reflexivity).
  apply kernel_argument_le; [exact Ht|]. unfold Rsqr. nra.
Qed.

(** C9, as float64 has it.  For every thresh whose square is an ordinary
    double (2^-500 <= thresh <= 2^500), the contribution of a point is 1 at
    distance 0, the largest value it takes, and it does not increase with
    the distance d >= 0: it is at most 2/3 from d = thresh on, and from
    d = 47 thresh on it is exactly 0 (the exponential underflows), so that
    it is not strictly decreasing.  Hence [shift_score] over a fixed number
    n of points is at most n, is n when all distances are 0, and does not
    increase when one of the distances grows. *)
Theorem shift_score_maximal_at_zero_and_nonincreasing (thresh : R) :
  / 2 ^ 500 <= thresh -> thresh <= 2 ^ 500 ->
  kernel64 thresh 0 = 1 /\
  (forall d, kernel64 thresh d <= kernel64 thresh 0) /\
  (forall d1 d2, 0 <= d1 -> d1 <= d2 -> kernel64 thresh d2 <= kernel64 thresh d1) /\
  (forall d, thresh <= d -> kernel64 thresh d <= 2 / 3) /\
  (forall d, 47 * thresh <= d -> kernel64 thresh d = 0) /\
  (forall n, shift_score64 (repeat 0 n) thresh = INR n) /\
  (forall distances,
      shift_score64 distances thresh
      <= shift_score64 (repeat 0 (length distances)) thresh) /\
  (forall before after d d',
      0 <= d -> d <= d' ->
      shift_score64 (before ++ d' :: after) thresh
      <= shift_score64 (before ++ d :: after) thresh).
Proof.
  intros Hlo _. pose proof (float64_range_pos Hlo) as Ht.
  split; [apply kernel64_at_zero|].
  split; [|split; [|split; [|split; [|split; [|split]]]]].
  - intros d. rewrite kernel64_at_zero. apply kernel64_le_one. exact Ht.
  - intros d1 d2. apply kernel64_antitone. exact Ht.
  - intros d. apply kernel64_beyond_thresh. exact Ht.
  - intros d. apply kernel64_underflow. exact Ht.
  - intros n. apply shift_score64_all_zero.
  - intros l. rewrite shift_score64_all_zero. apply shift_score64_le_count. exact Ht.
  - intros l1 l2 d d' H0 H.
    rewrite !shift_score64_app, !shift_score64_cons.
    pose proof (kernel64_antitone Ht H0 H). lra.
Qed.

Lemma shift_score_maximal_at_zero_and_nonincreasing_witness :
  (/ 2 ^ 500 <= 2 /\ 2 <= 2 ^ 500) /\
  kernel64 2 0 = 1 /\
  kernel64 2 3 <= kernel64 2 0 /\
  kernel64 2 3 <= kernel64 2 1 /\
  kernel64 2 3 <= 2 / 3 /\
  kernel64 2 100 = 0 /\
  shift_score64 (repeat 0 3) 2 = 3 /\
  shift_score64 [1; 0; 3] 2 <= shift_score64 (repeat 0 3) 2 /\
  shift_score64 ([1] ++ 3 :: [0]) 2 <= shift_score64 ([1] ++ 2 :: [0]) 2.
Proof.
  assert (Hlo : / 2 ^ 500 <= 2).
  { assert (H : / 2 ^ 500 <= / 1).
    { apply Rinv_le_contravar; [lra|]. apply pow_R1_Rle. lra. }
    rewrite Rinv_1 in H. lra. }
  assert (Hhi : 2 <= 2 ^ 500).
  { replace 2 with (2 ^ 1) at 1 by (simpl; lra). apply Rle_pow; [lra|lia]. }
  split; [split; assumption|].
  destruct (shift_score_maximal_at_zero_and_nonincreasing Hlo Hhi)
    as (H0 & H1 & H2 & H3 & H4 & H5 & H6 & H7).
  split; [exact H0|].
  split; [apply H1|].
  split; [apply H2; lra|].
  split; [apply H3; lra|].
  split; [apply H4; lra|].
  split; [rewrite (H5 3%nat); simpl; lra|].
  split; [apply (H6 [1; 0; 3])|].
  apply H7; lra.
Defined.

(** Two distances that both underflow: at thresh = 2 the points at
    distance 100 and at distance 110 both contribute exp(-1250) and
    exp(-1512.5), which float64 returns as 0.0; the farther point does not
    score strictly less, and the score over two points is 1 in both cases. *)
Lemma shift_score_not_strictly_decreasing :
  0 <= 100 < 110 /\
  kernel64 2 100 = 0 /\ kernel64 2 110 = 0 /\
  ~ kernel64 2 110 < kernel64 2 100 /\
  shift_score64 [0; 100] 2 = 1 /\ shift_score64 [0; 110] 2 = 1 /\
  ~ shift_score64 ([0] ++ 110 :: []) 2 < shift_score64 ([0] ++ 100 :: []) 2.
Proof.
  assert (H100 : kernel64 2 100 = 0) by (apply kernel64_underflow; lra).
  assert (H110 : kernel64 2 110 = 0) by (apply kernel64_underflow; lra).
  split; [lra|]. split; [exact H100|]. split; [exact H110|].
  split; [lra|].
  assert (S100 : shift_score64 [0; 100] 2 = 1).
  { rewrite !shift_score64_cons, kernel64_at_zero, H100.
    unfold shift_score64. simpl. lra. }
  assert (S110 : shift_score64 [0; 110] 2 = 1).
  { rewrite !shift_score64_cons, kernel64_at_zero, H110.
    unfold shift_score64. simpl. lra. }
  split; [exact S100|]. split; [exact S110|].
  cbn [app]. lra.
Qed.

(* ------------------------------------------------------------------ *)
(** ** The error monad *)

Lemma mapM_total {A B : Type} (f : A -> result B) (g : A -> B) (l : list A) :
  (forall a, In a l -> f a = Ok (g a)) -> mapM f l = Ok (map g l).
Proof.
  induction l as [|a l IH]; intros H.
  - reflexivity.
  - cbn [mapM map]. rewrite (H a (or_introl eq_refl)). cbn [bind].
    rewrite IH; [reflexivity|]. intros b Hb. apply H. right. exact Hb.
Qed.

Lemma mapM_first_error {A B : Type} (f : A -> result B) (a : A) (l : list A) (e : exn) :
  f a = Err e -> mapM f (a :: l) = Err e.
Proof. intros H. cbn [mapM]. rewrite H. reflexivity. Qed.

(* ------------------------------------------------------------------ *)
(** ** [argmax] *)

Lemma Rltb_true (a b : R) : Rltb a b = true <-> a < b.
Proof. unfold Rltb. destruct (Rlt_dec a b); split; intros; congruence || assumption. Qed.

Lemma Rltb_false (a b : R) : Rltb a b = false <-> b <= a.
Proof.
  unfold Rltb. destruct (Rlt_dec a b); split; intros; try congruence; lra.
Qed.

Lemma argmax_from_spec (l pre : list R) (best_i : nat) (best : R) :
  (best_i < length pre)%nat ->
  nth best_i pre 0 = best ->
  (forall j, (j < length pre)%nat -> nth j pre 0 <= best) ->
  (forall j, (j < best_i)%nat -> nth j pre 0 < best) ->
  let r := argmax_from best_i best (length pre) l in
  (r < length (pre ++ l))%nat /\
  (forall j, (j < length (pre ++ l))%nat -> nth j (pre ++ l) 0 <= nth r (pre ++ l) 0) /\
  (forall j, (j < r)%nat -> nth j (pre ++ l) 0 < nth r (pre ++ l) 0).
Proof.
  revert pre best_i best.
  induction l as [|x l IH]; intros pre bi b Hbi Hb Hle Hlt; cbn [argmax_from].
  - rewrite app_nil_r. rewrite Hb. auto.
  - assert (Hpre : pre ++ x :: l = (pre ++ [x]) ++ l)
      by (rewrite <- app_assoc; reflexivity).
    assert (Hlen : length (pre ++ [x]) = S (length pre))
      by (rewrite length_app; simpl; lia).
    destruct (Rltb b x) eqn:Hcmp.
    + apply Rltb_true in Hcmp.
      rewrite Hpre, <- Hlen. apply IH.
      * lia.
      * rewrite app_nth2 by lia. rewrite Nat.sub_diag. reflexivity.
      * intros j Hj. rewrite Hlen in Hj.
        destruct (Nat.eq_dec j (length pre)) as [->|Hne].
        -- rewrite app_nth2 by lia. rewrite Nat.sub_diag. simpl. lra.
        -- rewrite app_nth1 by lia. specialize (Hle j ltac:(lia)). lra.
      * intros j Hj. rewrite app_nth1 by lia. specialize (Hle j Hj). lra.
    + apply Rltb_false in Hcmp.
      rewrite Hpre, <- Hlen. apply IH.
      * rewrite Hlen. lia.
      * rewrite app_nth1 by lia. exact Hb.
      * intros j Hj. rewrite Hlen in Hj.
        destruct (Nat.eq_dec j (length pre)) as [->|Hne].
        -- rewrite app_nth2 by lia. rewrite Nat.sub_diag. simpl. lra.
        -- rewrite app_nth1 by lia. apply Hle. lia.
      * intros j Hj. rewrite app_nth1 by lia. apply Hlt. exact Hj.
Qed.

Lemma argmax_spec (l : list R) :
  l <> [] ->
  exists i, argmax l = Ok i /\ (i < length l)%nat /\
    (forall j, (j < length l)%nat -> nth j l 0 <= nth i l 0) /\
    (forall j, (j < i)%nat -> nth j l 0 < nth i l 0).
Proof.
  destruct l as [|x l]; [congruence|]. intros _.
  exists (argmax_from 0 x 1 l). split; [reflexivity|].
  apply (@argmax_from_spec l [x] 0%nat x).
  - simpl. lia.
  - reflexivity.
  - intros j Hj. simpl in Hj. assert (j = 0%nat) as -> by lia. simpl. lra.
  - intros j Hj. lia.
Qed.

(* ------------------------------------------------------------------ *)
(** ** Rows, grids and the set difference *)

Lemma meshgrid_rows_in (ys xs zs : array) (r : qrow) :
  In r (meshgrid_rows ys xs zs) <-> In (ry r) ys /\ In (rx r) xs /\ In (rz r) zs.
Proof.
  unfold meshgrid_rows. rewrite in_flat_map. split.
  - intros (z & Hz & H). apply in_flat_map in H. destruct H as (y & Hy & H).
    apply in_map_iff in H. destruct H as (x & <- & Hx). simpl. auto.
  - intros (Hy & Hx & Hz). exists (rz r). split; [assumption|].
    apply in_flat_map. exists (ry r). split; [assumption|].
    apply in_map_iff. exists (rx r). split; [destruct r; reflexivity|assumption].
Qed.

Lemma row_eqb_spec (r s : qrow) :
  row_eqb r s = true <->
  (ry r == ry s)%Q /\ (rx r == rx s)%Q /\ (rz r == rz s)%Q.
Proof.
  unfold row_eqb. rewrite !andb_true_iff, !Qeq_bool_iff. tauto.
Qed.

Lemma row_eqb_refl (r : qrow) : row_eqb r r = true.
Proof. apply row_eqb_spec. repeat split; reflexivity. Qed.

Lemma row_eqb_sym (r s : qrow) : row_eqb r s = true -> row_eqb s r = true.
Proof.
  rewrite !row_eqb_spec. intros (a & b & c). repeat split; symmetry; assumption.
Qed.

Lemma row_eqb_trans (r s t : qrow) :
  row_eqb r s = true -> row_eqb s t = true -> row_eqb r t = true.
Proof.
  rewrite !row_eqb_spec. intros (a & b & c) (a' & b' & c').
  repeat split; etransitivity; eassumption.
Qed.

Lemma row_compare_eq (r s : qrow) : row_compare r s = Eq -> row_eqb r s = true.
Proof.
  unfold row_compare. intros H. apply row_eqb_spec.
  destruct (ry r ?= ry s)%Q eqn:Hy; try discriminate.
  destruct (rx r ?= rx s)%Q eqn:Hx; try discriminate.
  apply Qeq_alt in Hy, Hx, H. auto.
Qed.

Lemma row_mem_true (r : qrow) (l : list qrow) :
  row_mem r l = true <-> exists s, In s l /\ row_eqb r s = true.
Proof. unfold row_mem. apply existsb_exists. Qed.

Lemma row_mem_eqb (r s : qrow) (l : list qrow) :
  row_eqb r s = true -> row_mem r l = row_mem s l.
Proof.
  intros H. destruct (row_mem s l) eqn:Hs.
  - apply row_mem_true in Hs. destruct Hs as (t & Ht & Hst).
    apply row_mem_true. exists t. split; [assumption|].
    eapply row_eqb_trans; eassumption.
  - destruct (row_mem r l) eqn:Hr; [|reflexivity].
    apply row_mem_true in Hr. destruct Hr as (t & Ht & Hrt).
    assert (row_mem s l = true).
    { apply row_mem_true. exists t. split; [assumption|].
      eapply row_eqb_trans; [apply row_eqb_sym|]; eassumption. }
    congruence.
Qed.

Lemma insert_row_in (x r : qrow) (l : list qrow) :
  In r (insert_row x l) -> r = x \/ In r l.
Proof.
  induction l as [|h t IH]; cbn [insert_row].
  - intros [<-|[]]. auto.
  - destruct (row_compare x h).
    + auto.
    + intros [<-|H]; auto.
    + intros [<-|H]; [right; left; reflexivity|].
      destruct (IH H); [auto|right; right; assumption].
Qed.

Lemma insert_row_keeps (x r : qrow) (l : list qrow) :
  r = x \/ In r l -> exists r', In r' (insert_row x l) /\ row_eqb r r' = true.
Proof.
  induction l as [|h t IH]; cbn [insert_row].
  - intros [->|[]]. exists x. split; [left; reflexivity|apply row_eqb_refl].
  - destruct (row_compare x h) eqn:Hc.
    + intros [->|H].
      * exists h. split; [left; reflexivity|apply row_compare_eq; assumption].
      * exists r. split; [assumption|apply row_eqb_refl].
    + intros [->|H].
      * exists x. split; [left; reflexivity|apply row_eqb_refl].
      * exists r. split; [right; assumption|apply row_eqb_refl].
    + intros [->|[->|H]].
      * destruct (IH (or_introl eq_refl)) as (r' & Hr' & He).
        exists r'. split; [right; assumption|assumption].
      * exists r. split; [left; reflexivity|apply row_eqb_refl].
      * destruct (IH (or_intror H)) as (r' & Hr' & He).
        exists r'. split; [right; assumption|assumption].
Qed.

Lemma setdiff2d_in (a b : list qrow) (r : qrow) :
  In r (setdiff2d a b) -> In r a /\ row_mem r b = false.
Proof.
  unfold setdiff2d. induction a as [|h a IH]; cbn [filter fold_right].
  - intros [].
  - destruct (row_mem h b) eqn:Hm; cbn [negb].
    + intros H. destruct (IH H). split; [right|]; assumption.
    + cbn [fold_right]. intros H. apply insert_row_in in H.
      destruct H as [->|H].
      * split; [left; reflexivity|assumption].
      * destruct (IH H). split; [right|]; assumption.
Qed.

Lemma setdiff2d_keeps (a b : list qrow) (r : qrow) :
  In r a -> row_mem r b = false ->
  exists r', In r' (setdiff2d a b) /\ row_eqb r r' = true.
Proof.
  unfold setdiff2d. induction a as [|h a IH]; cbn [filter fold_right].
  - intros [].
  - intros [->|H] Hr.
    + rewrite Hr. cbn [negb fold_right].
      apply insert_row_keeps. left. reflexivity.
    + destruct (IH H Hr) as (r' & Hr' & He).
      destruct (row_mem h b); cbn [negb fold_right].
      * exists r'. auto.
      * destruct (@insert_row_keeps h r' _ (or_intror Hr')) as (r'' & Hr'' & He').
        exists r''. split; [assumption|]. eapply row_eqb_trans; eassumption.
Qed.

(* ------------------------------------------------------------------ *)
(** ** Nearest neighbours *)

Lemma fold_left_Rmin_spec (l : list R) (a : R) :
  let m := fold_left Rmin l a in
  m <= a /\ (forall x, In x l -> m <= x) /\ (m = a \/ In m l).
Proof.
  revert a. induction l as [|x l IH]; intros a; cbn [fold_left].
  - split; [lra|]. split; [intros ? []|left; reflexivity].
  - destruct (IH (Rmin a x)) as (H1 & H2 & H3).
    pose proof (Rmin_l a x). pose proof (Rmin_r a x).
    split; [lra|]. split.
    + intros y [<-|Hy]; [lra|apply H2; assumption].
    + destruct H3 as [H3|H3].
      * rewrite H3. unfold Rmin. destruct (Rle_dec a x); [left|right; left]; reflexivity.
      * right. right. assumption.
Qed.

(** [nearest_distance] is the distance to a nearest point of the cloud. *)
Lemma nearest_distance_spec (X : cloud) (p : qrow) :
  X <> [] ->
  (exists t, In t X /\ nearest_distance X p = euclidean p t) /\
  (forall t, In t X -> nearest_distance X p <= euclidean p t).
Proof.
  destruct X as [|t X]; [congruence|]. intros _. cbn [nearest_distance].
  destruct (fold_left_Rmin_spec (map (euclidean p) X) (euclidean p t))
    as (H1 & H2 & H3).
  split.
  - destruct H3 as [H3|H3].
    + exists t. split; [left; reflexivity|assumption].
    + apply in_map_iff in H3. destruct H3 as (u & Hu & Hin).
      exists u. split; [right; assumption|symmetry; assumption].
  - intros u [<-|Hu]; [assumption|].
    apply H2. apply in_map. assumption.
Qed.

Lemma euclidean_nonneg (p t : qrow) : 0 <= euclidean p t.
Proof. unfold euclidean. apply sqrt_pos. Qed.

Lemma sq_distance_nonneg (p t : qrow) : 0 <= sq_distance p t.
Proof.
  unfold sq_distance.
  pose proof (Rle_0_sqr (Q2R (ry p) - Q2R (ry t))).
  pose proof (Rle_0_sqr (Q2R (rx p) - Q2R (rx t))).
  pose proof (Rle_0_sqr (Q2R (rz p) - Q2R (rz t))). lra.
Qed.

Lemma euclidean_sq (p t : qrow) : (euclidean p t)² = sq_distance p t.
Proof. unfold euclidean. apply Rsqr_sqrt. apply sq_distance_nonneg. Qed.

Lemma nearest_distance_nonneg (X : cloud) (p : qrow) : 0 <= nearest_distance X p.
Proof.
  destruct X as [|t X]; [simpl; lra|].
  destruct (@nearest_distance_spec (t :: X) p ltac:(discriminate)) as ((u & _ & ->) & _).
  apply euclidean_nonneg.
Qed.

Lemma candidate_score_total (base tr : cloud) (thresh : R) (s : qrow) :
  base <> [] ->
  candidate_score (Fitted tr) base thresh s = Ok (score_at base tr thresh s).
Proof.
  intros Hb. unfold candidate_score, kneighbors.
  destruct base as [|p base]; [congruence|]. cbn [map bind fit_X].
  unfold shift_score, score_at. cbn [map]. rewrite !map_map. reflexivity.
Qed.

Lemma candidate_score_empty_base (nbrs : NearestNeighbors) (thresh : R) (s : qrow) :
  candidate_score nbrs [] thresh s = Err ValueError.
Proof. reflexivity. Qed.

Lemma row_add_eqb (p r s : qrow) :
  row_eqb r s = true -> row_eqb (row_add p r) (row_add p s) = true.
Proof.
  rewrite !row_eqb_spec. unfold row_add. cbn [ry rx rz].
  intros (a & b & c). rewrite a, b, c. repeat split; reflexivity.
Qed.

Lemma sq_distance_eqb (r s t : qrow) :
  row_eqb r s = true -> sq_distance r t = sq_distance s t.
Proof.
  rewrite row_eqb_spec. intros (a & b & c). unfold sq_distance.
  rewrite (Qeq_eqR _ _ a), (Qeq_eqR _ _ b), (Qeq_eqR _ _ c). reflexivity.
Qed.

Lemma nearest_distance_eqb (X : cloud) (r s : qrow) :
  row_eqb r s = true -> nearest_distance X r = nearest_distance X s.
Proof.
  intros H. destruct X as [|t X]; [reflexivity|]. cbn [nearest_distance].
  assert (He : forall u, euclidean r u = euclidean s u).
  { intros u. unfold euclidean. rewrite (@sq_distance_eqb r s u H). reflexivity. }
  rewrite He. f_equal. apply map_ext. exact He.
Qed.

(** Rows with the same numerical value have the same score. *)
Lemma score_at_eqb (base tr : cloud) (thresh : R) (r s : qrow) :
  row_eqb r s = true -> score_at base tr thresh r = score_at base tr thresh s.
Proof.
  intros H. unfold score_at. f_equal. apply map_ext. intros p.
  rewrite (@nearest_distance_eqb tr _ _ (@row_add_eqb p r s H)). reflexivity.
Qed.

(* ------------------------------------------------------------------ *)
(** ** [get_best_shift] *)

Lemma searched_shifts_in (ys xs zs : array) (ig : option (list qrow)) (r : qrow) :
  In r (searched_shifts ys xs zs ig) ->
  In (ry r) ys /\ In (rx r) xs /\ In (rz r) zs /\ ignored r ig = false.
Proof.
  unfold searched_shifts, ignored. destruct ig as [ig|].
  - intros H. apply setdiff2d_in in H. destruct H as (H & Hm).
    apply meshgrid_rows_in in H. tauto.
  - intros H. apply meshgrid_rows_in in H. tauto.
Qed.

Lemma searched_shifts_keeps (ys xs zs : array) (ig : option (list qrow)) (r : qrow) :
  In (ry r) ys -> In (rx r) xs -> In (rz r) zs -> ignored r ig = false ->
  exists r', In r' (searched_shifts ys xs zs ig) /\ row_eqb r r' = true.
Proof.
  intros Hy Hx Hz Hi.
  assert (Hin : In r (meshgrid_rows ys xs zs)) by (apply meshgrid_rows_in; auto).
  unfold searched_shifts, ignored in *. destruct ig as [ig|].
  - apply setdiff2d_keeps; assumption.
  - exists r. split; [assumption|apply row_eqb_refl].
Qed.

(** Evaluation of [get_best_shift] on non-empty clouds: the scores are those
    of [score_at], and the result is read off at their [argmax]. *)
Lemma get_best_shift_eval (base tr : cloud) (thresh : R) (ys xs zs : array)
    (ig : option (list qrow)) :
  base <> [] -> tr <> [] ->
  get_best_shift base tr thresh ys xs zs ig =
  (let all_shifts := searched_shifts ys xs zs ig in
   let score := grid_scores base tr thresh ys xs zs ig in
   i <- argmax score ;;
   Ok (nth i all_shifts zero_row, nth i score 0, median score, iqr score)).
Proof.
  intros Hb Ht. unfold get_best_shift, grid_scores.
  destruct tr as [|t tr]; [congruence|]. cbn [fit bind].
  rewrite (@mapM_total _ _ _ (score_at base (t :: tr) thresh)).
  - reflexivity.
  - intros s _. apply candidate_score_total. assumption.
Qed.

Lemma nth_map_default {A : Type} (f : A -> R) (l : list A) (d : A) (i : nat) :
  (i < length l)%nat -> nth i (map f l) 0 = f (nth i l d).
Proof.
  intros H. rewrite (nth_indep (map f l) 0 (f d)).
  - apply map_nth.
  - rewrite length_map. exact H.
Qed.

(** The result of [get_best_shift] whenever there is something to search:
    an entry of the searched list with the largest score, the first such. *)
Lemma get_best_shift_argmax (base tr : cloud) (thresh : R) (ys xs zs : array)
    (ig : option (list qrow)) :
  base <> [] -> tr <> [] -> searched_shifts ys xs zs ig <> [] ->
  exists i,
    (i < length (searched_shifts ys xs zs ig))%nat /\
    let best := nth i (searched_shifts ys xs zs ig) zero_row in
    get_best_shift base tr thresh ys xs zs ig =
      Ok (best, score_at base tr thresh best,
          median (grid_scores base tr thresh ys xs zs ig),
          iqr (grid_scores base tr thresh ys xs zs ig)) /\
    (forall c, In c (searched_shifts ys xs zs ig) ->
               score_at base tr thresh c <= score_at base tr thresh best) /\
    (forall j, (j < i)%nat ->
               score_at base tr thresh (nth j (searched_shifts ys xs zs ig) zero_row)
               < score_at base tr thresh best).
Proof.
  intros Hb Ht Hs.
  rewrite (@get_best_shift_eval base tr thresh ys xs zs ig Hb Ht).
  cbv zeta. unfold grid_scores.
  set (cands := searched_shifts ys xs zs ig) in *.
  destruct (@argmax_spec (map (score_at base tr thresh) cands)) as (i & Hi & Hlt & Hmax & Hfirst).
  { destruct cands; [congruence|discriminate]. }
  rewrite length_map in Hlt, Hmax.
  exists i. split; [assumption|]. rewrite Hi. cbn [bind].
  rewrite (@nth_map_default _ (score_at base tr thresh) cands zero_row i Hlt) in *.
  split; [reflexivity|]. split.
  - intros c Hc. apply (In_nth _ _ zero_row) in Hc. destruct Hc as (j & Hj & <-).
    specialize (Hmax j Hj).
    rewrite (@nth_map_default _ (score_at base tr thresh) cands zero_row j Hj) in Hmax.
    exact Hmax.
  - intros j Hj. specialize (Hfirst j Hj).
    rewrite (@nth_map_default _ (score_at base tr thresh) cands zero_row j) in Hfirst by lia.
    exact Hfirst.
Qed.

(** Without a candidate to score, [argmax] raises. *)
Lemma get_best_shift_nothing_to_search (base tr : cloud) (thresh : R)
    (ys xs zs : array) (ig : option (list qrow)) :
  searched_shifts ys xs zs ig = [] ->
  get_best_shift base tr thresh ys xs zs ig = Err ValueError.
Proof.
  intros H. unfold get_best_shift. rewrite H.
  destruct tr; reflexivity.
Qed.

(* ------------------------------------------------------------------ *)
(** ** [sort] puts a list in ascending order *)

Lemma insert_sorted_perm (x : R) (l : list R) :
  Permutation (insert_sorted x l) (x :: l).
Proof.
  induction l as [|h t IH]; cbn [insert_sorted].
  - apply Permutation_refl.
  - destruct (Rltb h x).
    + apply (perm_trans (perm_skip h IH)). apply perm_swap.
    + apply Permutation_refl.
Qed.

Lemma sort_perm (l : list R) : Permutation (sort l) l.
Proof.
  induction l as [|x l IH]; cbn [sort fold_right].
  - apply perm_nil.
  - fold (sort l). apply (perm_trans (insert_sorted_perm x (sort l))).
    apply perm_skip. exact IH.
Qed.

Lemma insert_sorted_sorted (x : R) (l : list R) :
  StronglySorted Rle l -> StronglySorted Rle (insert_sorted x l).
Proof.
  induction l as [|h t IH]; intros Hs; cbn [insert_sorted].
  - constructor; constructor.
  - inversion Hs as [|? ? Ht Hh]; subst.
    destruct (Rltb h x) eqn:E.
    + apply Rltb_true in E. constructor; [apply IH; exact Ht|].
      apply (Permutation_Forall (Permutation_sym (insert_sorted_perm x t))).
      constructor; [lra|exact Hh].
    + apply Rltb_false in E. constructor; [exact Hs|].
      constructor; [exact E|].
      apply (Forall_impl (Rle x) (fun a (H : h <= a) => Rle_trans _ _ _ E H) Hh).
Qed.

Lemma sort_sorted (l : list R) : StronglySorted Rle (sort l).
Proof.
  induction l as [|x l IH]; cbn [sort fold_right].
  - constructor.
  - apply insert_sorted_sorted. exact IH.
Qed.

(** A list has one ascending arrangement only. *)
Lemma sorted_perm_unique (l1 l2 : list R) :
  StronglySorted Rle l1 -> StronglySorted Rle l2 -> Permutation l1 l2 -> l1 = l2.
Proof.
  revert l2. induction l1 as [|a l1 IH]; intros l2 S1 S2 P.
  - apply Permutation_nil in P. subst. reflexivity.
  - destruct l2 as [|b l2].
    { apply Permutation_sym, Permutation_nil in P. discriminate. }
    inversion S1 as [|? ? S1' F1]; subst.
    inversion S2 as [|? ? S2' F2]; subst.
    rewrite Forall_forall in F1, F2.
    assert (Hab : a = b).
    { assert (Ha : In a (b :: l2)) by (apply (Permutation_in _ P); left; reflexivity).
      assert (Hb : In b (a :: l1))
        by (apply (Permutation_in _ (Permutation_sym P)); left; reflexivity).
      destruct Ha as [Ha|Ha]; [congruence|].
      destruct Hb as [Hb|Hb]; [congruence|].
      apply Rle_antisym; [apply F1; exact Hb|apply F2; exact Ha]. }
    subst b. f_equal. apply IH; try assumption.
    apply (Permutation_cons_inv P).
Qed.

Lemma searched_shifts_nil_iff (ys xs zs : array) (ig : option (list qrow)) :
  searched_shifts ys xs zs ig = [] <->
  (forall y x z, In y ys -> In x xs -> In z zs -> ignored (Row y x z) ig = true).
Proof.
  split.
  - intros E y x z Hy Hx Hz.
    destruct (ignored (Row y x z) ig) eqn:Hig; [reflexivity|].
    destruct (@searched_shifts_keeps ys xs zs ig (Row y x z) Hy Hx Hz Hig)
      as (r' & Hr' & _).
    rewrite E in Hr'. contradiction.
  - intros H. destruct (searched_shifts ys xs zs ig) as [|r l] eqn:E; [reflexivity|].
    assert (Hin : In r (searched_shifts ys xs zs ig)) by (rewrite E; left; reflexivity).
    apply searched_shifts_in in Hin. destruct Hin as (Hy & Hx & Hz & Hig).
    destruct r as [y x z]. cbn [ry rx rz] in *.
    rewrite (H y x z Hy Hx Hz) in Hig. discriminate.
Qed.

(** C1, as the code has it.  On non-empty clouds and with thresh > 0, the
    score of a candidate is the sum over the base points of
    [exp(-d²/(2·thresh²))], d being the distance from the translated base
    point to its nearest neighbour in the target cloud.  When no candidate
    is left to search (an axis is empty, or every row of the Cartesian
    product is among the ignored shifts), [get_best_shift] raises
    [ValueError].  Otherwise it returns a candidate of the Cartesian product
    that is not ignored and whose score is the largest among all such
    candidates, that score, and two statistics of the scores of all
    searched candidates put in ascending order: the median (the middle
    value, or the mean of the two middle values) and the interquartile
    range (the value at three quarters of the way through the ascending
    scores minus the value at one quarter, each interpolated linearly
    between its two neighbours). *)
Theorem get_best_shift_best_candidate_or_ValueError
    (base tr : cloud) (thresh : R) (ys xs zs : array) (ig : option (list qrow)) :
  base <> [] -> tr <> [] -> 0 < thresh ->
  let score_of := fun c : qrow =>
    Rsum (map (fun p => exp (- (nearest_distance tr (row_add p c))²
                             / (2 * thresh²))) base) in
  ((forall y x z, In y ys -> In x xs -> In z zs -> ignored (Row y x z) ig = true) ->
   get_best_shift base tr thresh ys xs zs ig = Err ValueError) /\
  ((exists y x z, In y ys /\ In x xs /\ In z zs /\ ignored (Row y x z) ig = false) ->
   exists best ascending,
     Permutation ascending (map score_of (searched_shifts ys xs zs ig)) /\
     StronglySorted Rle ascending /\
     let n := length ascending in
     let at_quarter := fun k : nat =>
       nth (k * (n - 1) / 4) ascending 0
       + INR ((k * (n - 1)) mod 4) / 4
         * (nth (Nat.min (S (k * (n - 1) / 4)) (n - 1)) ascending 0
            - nth (k * (n - 1) / 4) ascending 0) in
     get_best_shift base tr thresh ys xs zs ig =
       Ok (best, score_of best,
           if Nat.even n
           then (nth (n / 2 - 1) ascending 0 + nth (n / 2) ascending 0) / 2
           else nth (n / 2) ascending 0,
           at_quarter 3%nat - at_quarter 1%nat) /\
     (In (ry best) ys /\ In (rx best) xs /\ In (rz best) zs /\
      ignored best ig = false) /\
     (forall y x z,
         In y ys -> In x xs -> In z zs -> ignored (Row y x z) ig = false ->
         score_of (Row y x z) <= score_of best)) /\
  (forall p c,
      (exists t, In t tr /\
                 nearest_distance tr (row_add p c) = euclidean (row_add p c) t) /\
      (forall t, In t tr ->
                 nearest_distance tr (row_add p c) <= euclidean (row_add p c) t)).
Proof.
  intros Hb Ht _ score_of.
  split; [|split].
  - intros Hall. apply get_best_shift_nothing_to_search.
    apply searched_shifts_nil_iff. exact Hall.
  - intros (y0 & x0 & z0 & Hy0 & Hx0 & Hz0 & Hig0).
    assert (Hs : searched_shifts ys xs zs ig <> []).
    { intros E. rewrite searched_shifts_nil_iff in E.
      rewrite (E y0 x0 z0 Hy0 Hx0 Hz0) in Hig0. discriminate. }
    destruct (@get_best_shift_argmax base tr thresh ys xs zs ig Hb Ht Hs)
      as (i & Hi & Heq & Hmax & _).
    cbv zeta in Heq, Hmax.
    set (best := nth i (searched_shifts ys xs zs ig) zero_row) in *.
    assert (Hin : In best (searched_shifts ys xs zs ig)) by (apply nth_In; exact Hi).
    exists best, (sort (grid_scores base tr thresh ys xs zs ig)).
    split; [apply sort_perm|]. split; [apply sort_sorted|].
    cbv zeta. split; [exact Heq|]. split.
    + apply searched_shifts_in with (1 := Hin).
    + intros y x z Hy Hx Hz Hig.
      destruct (@searched_shifts_keeps ys xs zs ig (Row y x z) Hy Hx Hz Hig)
        as (r' & Hr' & He).
      change (score_at base tr thresh (Row y x z) <= score_at base tr thresh best).
      rewrite (@score_at_eqb base tr thresh _ _ He). apply Hmax. exact Hr'.
  - intros p c. apply nearest_distance_spec. exact Ht.
Qed.

(** A grid with an empty axis, and a grid all of whose rows are ignored:
    the clouds are not empty, thresh = 2 > 0, and the call raises
    [ValueError] instead of returning a candidate. *)
Lemma get_best_shift_raises_without_candidates :
  let origin := [Row 0%Q 0%Q 0%Q] in
  origin <> [] /\ 0 < 2 /\
  get_best_shift origin origin 2 (ints [0; 1]%Z) [] (ints [0]%Z) None
  = Err ValueError /\
  get_best_shift origin origin 2 (ints [0; 1]%Z) (ints [0]%Z) (ints [0]%Z)
    (Some (meshgrid_rows (ints [0; 1]%Z) (ints [0]%Z) (ints [0]%Z)))
  = Err ValueError.
Proof.
  cbv zeta. split; [discriminate|]. split; [lra|]. split.
  - apply get_best_shift_nothing_to_search. reflexivity.
  - apply get_best_shift_nothing_to_search. vm_compute. reflexivity.
Qed.

(* ------------------------------------------------------------------ *)
(** ** Empty point clouds *)

Lemma get_best_shift_empty_cloud (base tr : cloud) (thresh : R) (ys xs zs : array)
    (ig : option (list qrow)) :
  base = [] \/ tr = [] ->
  get_best_shift base tr thresh ys xs zs ig = Err ValueError.
Proof.
  intros H. unfold get_best_shift.
  destruct tr as [|t tr]; [reflexivity|].
  destruct H as [->|H]; [|discriminate]. cbn [fit bind].
  destruct (searched_shifts ys xs zs ig) as [|c cs]; reflexivity.
Qed.

Lemma scale_z_inplace_nil (z_scale : Q) (a : list zrow) :
  a = [] -> map to_float (scale_z_inplace z_scale a) = [].
Proof. intros ->. reflexivity. Qed.

(** C4, as the code has it.  When the base cloud or the target cloud is an
    [n x 3] array without rows (shape (0, 3), the shape the docstrings ask
    for and the only empty array a list of rows stands for),
    [get_best_shift] fails, and so does [compute_shift]; the exception is
    the [ValueError] of the nearest-neighbour library (or of [argmax] when
    there is no candidate either).  (An empty array of one dimension does
    not get that far: line 150 indexes its second axis.) *)
Theorem empty_cloud_raises_ValueError
    (base tr : cloud) (zbase ztr : list zrow) (min_score : option R)
    (k thresh : R) (ys xs zs : array) (ig : option (list qrow))
    (yw xw zw : Z) (z_scale : Q) :
  (base = [] \/ tr = [] ->
   get_best_shift base tr thresh ys xs zs ig = Err ValueError) /\
  (zbase = [] \/ ztr = [] ->
   returned (compute_shift zbase ztr min_score k thresh ys xs zs yw xw zw z_scale)
   = Err ValueError).
Proof.
  split.
  - apply get_best_shift_empty_cloud.
  - intros H. unfold compute_shift. cbn [returned]. unfold search.
    rewrite get_best_shift_empty_cloud; [reflexivity|].
    destruct H as [H|H]; [left|right]; apply scale_z_inplace_nil; exact H.
Qed.

Lemma empty_cloud_raises_ValueError_witness :
  get_best_shift [] [Row 0%Q 0%Q 0%Q] 2 (ints [0]%Z) (ints [0]%Z) (ints [0]%Z) None
  = Err ValueError /\
  returned (compute_shift [Row 0 0 0]%Z [] None 5 2
              (ints [0]%Z) (ints [0]%Z) (ints [0]%Z) 0 0 0 1)
  = Err ValueError.
Proof.
  destruct (@empty_cloud_raises_ValueError
              [] [Row 0%Q 0%Q 0%Q] [Row 0 0 0]%Z [] None 5 2
              (ints [0]%Z) (ints [0]%Z) (ints [0]%Z) None 0 0 0 1) as (H1 & H2).
  split; [apply H1; left; reflexivity|apply H2; right; reflexivity].
Defined.

(** The failure is not the [DegenerateInputError] of the specification. *)
Lemma empty_cloud_not_DegenerateInputError :
  get_best_shift [] [Row 0%Q 0%Q 0%Q] 2 (ints [0]%Z) (ints [0]%Z) (ints [0]%Z) None
  <> Err DegenerateInputError.
Proof.
  rewrite get_best_shift_empty_cloud by (left; reflexivity). discriminate.
Qed.

(* ------------------------------------------------------------------ *)
(** ** The argument arrays after a call *)

Lemma Qtrunc_scale_one (z : Z) (z_scale : Q) :
  (z_scale == 1)%Q -> Qtrunc (inject_Z z * z_scale) = z.
Proof.
  intros H. unfold Qtrunc. destruct z_scale as [n d].
  unfold Qeq in H. cbn in H. cbn [Qnum Qden Qmult inject_Z].
  rewrite Z.mul_1_r in H. subst n.
  rewrite Pos.mul_1_l. apply Z.quot_mul. discriminate.
Qed.

Lemma scale_z_inplace_one (z_scale : Q) (a : list zrow) :
  (z_scale == 1)%Q -> scale_z_inplace z_scale a = a.
Proof.
  intros H. unfold scale_z_inplace. induction a as [|[y x z] a IH].
  - reflexivity.
  - cbn [map ry rx rz]. rewrite IH, (Qtrunc_scale_one z H). reflexivity.
Qed.








(* ------------------------------------------------------------------ *)
(** ** The [direction] argument of [extend_array] *)

Lemma arange_error (start stop step : Q) (e : exn) :
  arange start stop step = Err e -> e = ValueError.
Proof. unfold arange. destruct (Qeq_bool step 0); congruence. Qed.

Lemma array_min_error (a : array) (e : exn) : array_min a = Err e -> e = ValueError.
Proof. destruct a; simpl; congruence. Qed.

Lemma array_max_error (a : array) (e : exn) : array_max a = Err e -> e = ValueError.
Proof. destruct a; simpl; congruence. Qed.

Lemma direction_of_string_other (dir : string) :
  ~ recognised dir -> direction_of_string dir = other dir.
Proof.
  intros H. unfold direction_of_string, recognised in *.
  destruct (String.eqb_spec dir "below"); [tauto|].
  destruct (String.eqb_spec dir "above"); [tauto|].
  destruct (String.eqb_spec dir "both"); [tauto|].
  reflexivity.
Qed.

(** C10.  [extend_array] looks at [direction] only when an extension is
    asked for: with extend_scale = 0 it returns the array it was given,
    whatever the string; with extend_scale <> 0 a string other than
    'below', 'above' or 'both' gives [ValueError] and no array. *)
Theorem extend_array_checks_direction_only_when_extending :
  (forall a dir, extend_array a 0 dir = Ok a) /\
  (forall a extend_scale dir,
      extend_scale <> 0%Z -> ~ recognised dir ->
      extend_array a extend_scale dir = Err ValueError).
Proof.
  split.
  - intros a dir. reflexivity.
  - intros a k dir Hk Hd. unfold extend_array.
    apply Z.eqb_neq in Hk. rewrite Hk.
    destruct (mean (ediff1d a)) as [step|]; [|reflexivity].
    destruct (array_min a) as [lo|e] eqn:Hlo;
      [|apply array_min_error in Hlo; subst; reflexivity].
    cbn [bind].
    destruct (arange _ lo step) as [ext_below|e] eqn:Hb;
      [|apply arange_error in Hb; subst; reflexivity].
    cbn [bind].
    destruct (array_max a) as [hi|e] eqn:Hhi;
      [|apply array_max_error in Hhi; subst; reflexivity].
    cbn [bind].
    destruct (arange (hi + step) _ step) as [ext_above|e] eqn:Ha;
      [|apply arange_error in Ha; subst; reflexivity].
    cbn [bind]. rewrite (direction_of_string_other Hd). reflexivity.
Qed.

Lemma extend_array_checks_direction_only_when_extending_witness :
  (2 <> 0)%Z /\ ~ recognised "sideways" /\
  extend_array (ints [0; 1; 2]%Z) 0 "sideways" = Ok (ints [0; 1; 2]%Z) /\
  extend_array (ints [0; 1; 2]%Z) 2 "sideways" = Err ValueError.
Proof.
  assert (Hk : (2 <> 0)%Z) by discriminate.
  assert (Hd : ~ recognised "sideways")
    by (unfold recognised; intros [H|[H|H]]; discriminate H).
  destruct extend_array_checks_direction_only_when_extending as (H0 & H1).
  split; [exact Hk|]. split; [exact Hd|]. split.
  - apply H0.
  - apply H1; assumption.
Defined.

(* ------------------------------------------------------------------ *)
(** ** The automatic [min_score] *)

Lemma median_singleton (x : R) : median [x] = x.
Proof. reflexivity. Qed.

Lemma iqr_singleton (x : R) : iqr [x] = 0.
Proof. unfold iqr, quartile. cbn. lra. Qed.

Lemma search_unfold (base tr : cloud) (min_score : option R) (k thresh : R)
    (ys xs zs : array) (yw xw zw : Z) (z_scale : Q) :
  search base tr min_score k thresh ys xs zs yw xw zw z_scale =
  ('(shift, score, score_median, score_iqr) <-
     get_best_shift base tr thresh ys xs (scaled zs z_scale) None ;;
   after_coarse base tr
     match min_score with
     | None => score_median + k * score_iqr
     | Some m => m
     end thresh ys xs zs yw xw zw z_scale shift score).
Proof.
  unfold search.
  destruct (get_best_shift base tr thresh ys xs (scaled zs z_scale) None)
    as [[[[s sc] med] iq]|e]; reflexivity.
Qed.

Lemma after_coarse_min_score (base tr : cloud) (m thresh : R)
    (ys xs zs : array) (yw xw zw : Z) (z_scale : Q) (s : qrow) (sc : R)
    (r : zrow) (sc' ms : R) :
  after_coarse base tr m thresh ys xs zs yw xw zw z_scale s sc = Ok (r, sc', ms) ->
  ms = m.
Proof.
  unfold after_coarse. cbv zeta.
  destruct (widen_phase _ _ _ _ _ _ _ _ _ _) as [st|e]; [|discriminate].
  cbn [bind].
  destruct (refine_phase _ _ _ _ _ _ _) as [[s' sc'']|e]; [|discriminate].
  cbn [bind]. intros H. inversion H. reflexivity.
Qed.

(** C7.  With [min_score = None], [compute_shift] behaves in every respect
    as if it had been given the median of the scores of the coarse grid
    plus [min_score_auto_param] times their interquartile range, and this
    is the value it returns as third result.  Median and interquartile
    range are read off the scores put in ascending order: the middle value
    (or the mean of the two middle values), and the value three quarters of
    the way through minus the value one quarter of the way through, each
    interpolated linearly between its two neighbours. *)
Theorem compute_shift_automatic_min_score
    (base tr : list zrow) (k thresh : R) (ys xs zs : array) (yw xw zw : Z)
    (z_scale : Q) :
  let b := map to_float (scale_z_inplace z_scale base) in
  let t := map to_float (scale_z_inplace z_scale tr) in
  let scores :=
    map (score_at b t thresh) (meshgrid_rows ys xs (scaled zs z_scale)) in
  exists ascending,
    Permutation ascending scores /\
    StronglySorted Rle ascending /\
    let n := length ascending in
    let at_quarter := fun q : nat =>
      nth (q * (n - 1) / 4) ascending 0
      + INR ((q * (n - 1)) mod 4) / 4
        * (nth (Nat.min (S (q * (n - 1) / 4)) (n - 1)) ascending 0
           - nth (q * (n - 1) / 4) ascending 0) in
    let med :=
      if Nat.even n
      then (nth (n / 2 - 1) ascending 0 + nth (n / 2) ascending 0) / 2
      else nth (n / 2) ascending 0 in
    let auto := med + k * (at_quarter 3%nat - at_quarter 1%nat) in
    compute_shift base tr None k thresh ys xs zs yw xw zw z_scale
    = compute_shift base tr (Some auto) k thresh ys xs zs yw xw zw z_scale /\
    (forall r sc ms,
        returned (compute_shift base tr None k thresh ys xs zs yw xw zw z_scale)
        = Ok (r, sc, ms) ->
        ms = auto).
Proof.
  intros b t scores. exists (sort scores).
  split; [apply sort_perm|]. split; [apply sort_sorted|].
  cbv zeta. unfold compute_shift. cbn [returned]. fold b t.
  rewrite !search_unfold.
  destruct b as [|p b'] eqn:Hb.
  { rewrite get_best_shift_empty_cloud by (left; reflexivity).
    split; [reflexivity|]. cbn [bind]. discriminate. }
  destruct t as [|q t'] eqn:Ht.
  { rewrite get_best_shift_empty_cloud by (right; reflexivity).
    split; [reflexivity|]. cbn [bind]. discriminate. }
  rewrite get_best_shift_eval by discriminate. cbv zeta.
  destruct (argmax _) as [i|e].
  - cbn [bind]. split; [reflexivity|].
    intros r sc ms H. apply after_coarse_min_score in H. exact H.
  - cbn [bind]. split; [reflexivity|discriminate].
Qed.

(* ------------------------------------------------------------------ *)
(** ** One base point and one target point

    With clouds of one point each, the score of a candidate is the kernel
    at the distance from the translated base point to the target point, so
    the scores are ordered as the squared distances are, and the search can
    be followed in [Q]. *)

Lemma sq_distance_Q2R (p t : qrow) : sq_distance p t = Q2R (sq_distance_Q p t).
Proof.
  unfold sq_distance, sq_distance_Q, Rsqr.
  rewrite !Q2R_plus, !Q2R_mult, !Q2R_minus. reflexivity.
Qed.

Lemma closeness_nonneg (b t c : qrow) : 0 <= Q2R (closeness b t c).
Proof. unfold closeness. rewrite <- sq_distance_Q2R. apply sq_distance_nonneg. Qed.

Lemma score_at_single (b t : qrow) (thresh : R) (c : qrow) :
  score_at [b] [t] thresh c = kernel thresh (sqrt (Q2R (closeness b t c))).
Proof.
  unfold score_at, closeness. cbn [map Rsum fold_right nearest_distance fold_left].
  unfold euclidean. rewrite sq_distance_Q2R. apply Rplus_0_r.
Qed.

Section SinglePoints.
Variable thresh : R.
Hypothesis thresh_pos : 0 < thresh.
Variables b t : qrow.

Let kscore (c : qrow) : R := kernel thresh (sqrt (Q2R (closeness b t c))).

Lemma kscore_lt (c c' : qrow) :
  kscore c < kscore c' <-> negb (Qle_bool (closeness b t c) (closeness b t c')) = true.
Proof.
  unfold kscore.
  pose proof (closeness_nonneg b t c) as Hc.
  pose proof (closeness_nonneg b t c') as Hc'.
  rewrite negb_true_iff.
  destruct (Qle_bool (closeness b t c) (closeness b t c')) eqn:Hle.
  - apply Qle_bool_iff, Qle_Rle in Hle. split; [|discriminate].
    intros H. exfalso.
    destruct Hle as [Hlt|Heq].
    + assert (kernel thresh (sqrt (Q2R (closeness b t c')))
              < kernel thresh (sqrt (Q2R (closeness b t c)))).
      { apply (kernel_of_sq thresh_pos). rewrite !Rsqr_sqrt by assumption. exact Hlt. }
      lra.
    + rewrite Heq in H. lra.
  - split; [reflexivity|]. intros _.
    assert (Hlt : Q2R (closeness b t c') < Q2R (closeness b t c)).
    { apply Qlt_Rlt. apply Qnot_le_lt. intros H.
      apply Qle_bool_iff in H. congruence. }
    apply (kernel_of_sq thresh_pos). rewrite !Rsqr_sqrt by assumption. exact Hlt.
Qed.

Lemma argmax_from_kscore (l : list qrow) (best_i : nat) (best : qrow) (i : nat) :
  argmax_from best_i (kscore best) i (map kscore l)
  = argmin_from best_i (closeness b t best) i (map (closeness b t) l).
Proof.
  revert best_i best i. induction l as [|c l IH]; intros bi best i.
  - reflexivity.
  - cbn [map argmax_from argmin_from].
    destruct (negb (Qle_bool (closeness b t best) (closeness b t c))) eqn:Hq.
    + apply kscore_lt in Hq. apply Rltb_true in Hq. rewrite Hq. apply IH.
    + assert (Hr : Rltb (kscore best) (kscore c) = false).
      { destruct (Rltb (kscore best) (kscore c)) eqn:Hr; [|reflexivity].
        apply Rltb_true, kscore_lt in Hr. congruence. }
      rewrite Hr. apply IH.
Qed.

Lemma argmin_from_bound (l : list Q) (best_i : nat) (best : Q) (i : nat) :
  (best_i < i)%nat -> (argmin_from best_i best i l < i + length l)%nat.
Proof.
  revert best_i best i. induction l as [|x l IH]; intros bi best i H.
  - simpl. lia.
  - cbn [argmin_from length]. destruct (negb (Qle_bool best x)).
    + specialize (IH i x (S i) ltac:(lia)). lia.
    + specialize (IH bi best (S i) ltac:(lia)). lia.
Qed.

Lemma argmin_bound (l : list Q) : l <> [] -> (argmin l < length l)%nat.
Proof.
  destruct l as [|x l]; [congruence|]. intros _. cbn [argmin length].
  pose proof (@argmin_from_bound l 0%nat x 1%nat ltac:(lia)). lia.
Qed.

(** [get_best_shift] on one-point clouds returns the first candidate that
    brings the base point closest to the target point. *)
Lemma get_best_shift_single_points (ys xs zs : array) (ig : option (list qrow)) :
  searched_shifts ys xs zs ig <> [] ->
  get_best_shift [b] [t] thresh ys xs zs ig =
  Ok (closest b t (searched_shifts ys xs zs ig),
      kernel thresh
        (sqrt (Q2R (closeness b t (closest b t (searched_shifts ys xs zs ig))))),
      median (grid_scores [b] [t] thresh ys xs zs ig),
      iqr (grid_scores [b] [t] thresh ys xs zs ig)).
Proof.
  intros Hne.
  rewrite get_best_shift_eval by discriminate. cbv zeta.
  unfold closest.
  set (cands := searched_shifts ys xs zs ig) in *.
  assert (Hs : grid_scores [b] [t] thresh ys xs zs ig = map kscore cands).
  { unfold grid_scores. fold cands. apply map_ext. intros c. apply score_at_single. }
  rewrite Hs.
  assert (Ha : argmax (map kscore cands) = Ok (argmin (map (closeness b t) cands))).
  { destruct cands as [|c l]; [congruence|]. cbn [map argmax argmin].
    f_equal. apply argmax_from_kscore. }
  rewrite Ha. cbn [bind].
  assert (Hi : (argmin (map (closeness b t) cands) < length cands)%nat).
  { rewrite <- (length_map (closeness b t)). apply argmin_bound.
    destruct cands; [congruence|discriminate]. }
  rewrite (@nth_map_default _ kscore cands zero_row _ Hi). reflexivity.
Qed.
End SinglePoints.

(* ------------------------------------------------------------------ *)
(** ** The phases of [compute_shift] *)

Lemma widen_wanted_iff (sc ms : R) (yw xw zw : Z) :
  widen_wanted sc ms yw xw zw = true <->
  sc < ms /\ (0 < Z.max (Z.max yw xw) zw)%Z.
Proof.
  unfold widen_wanted. rewrite andb_true_iff, Rltb_true, Z.ltb_lt. tauto.
Qed.

Lemma widen_phase_skip (base tr : cloud) (thresh : R) (initial : list qrow)
    (ms : R) (yw xw zw : Z) (z_scale : Q) (st : search_state) :
  widen_wanted (score st) ms yw xw zw = false ->
  widen_phase base tr thresh initial ms yw xw zw z_scale st = Ok st.
Proof. intros H. unfold widen_phase. rewrite H. reflexivity. Qed.

Lemma widen_wanted_zero (sc ms : R) : widen_wanted sc ms 0 0 0 = false.
Proof. unfold widen_wanted. apply andb_false_r. Qed.

Lemma refine_phase_skip (base tr : cloud) (thresh : R) (initial : list qrow)
    (ms : R) (z_scale : Q) (st : search_state) :
  score st <= ms ->
  refine_phase base tr thresh initial ms z_scale st = Ok (shift st, score st).
Proof.
  intros H. unfold refine_phase. apply Rltb_false in H. rewrite H. reflexivity.
Qed.

Lemma score_at_le_count (base tr : cloud) (thresh : R) (c : qrow) :
  0 < thresh -> score_at base tr thresh c <= INR (length base).
Proof.
  intros Ht. unfold score_at.
  pose proof (@shift_score_le_count thresh Ht
                (map (fun p => nearest_distance tr (row_add p c)) base)) as H.
  unfold shift_score in H. rewrite map_map, length_map in H. exact H.
Qed.

(** Evaluation of the rational parts of a call on concrete arguments. *)
Ltac evalQ t :=
  lazymatch t with
  | context [Rltb] => fail
  | _ =>
      let v := eval vm_compute in t in
      replace t with v by (vm_compute; reflexivity)
  end.

Ltac eval_grid :=
  repeat match goal with
  | |- context [map to_float ?a] => progress evalQ (map to_float a)
  | |- context [refined_shifts ?a ?b ?c ?d] => progress evalQ (refined_shifts a b c d)
  | |- context [extend_array ?a ?b ?c] => progress evalQ (extend_array a b c)
  | |- context [unscale ?a ?b] => progress evalQ (unscale a b)
  | |- context [closest ?a ?b ?c] => progress evalQ (closest a b c)
  | |- context [closeness ?a ?b ?c] => progress evalQ (closeness a b c)
  | |- context [astype_int ?a] => progress evalQ (astype_int a)
  end.

Lemma Q2R_zero : Q2R 0 = 0.
Proof. unfold Q2R. simpl. lra. Qed.

Lemma Q2R_one : Q2R 1 = 1.
Proof. unfold Q2R. simpl. lra. Qed.

Lemma kernel_sqrt_zero (thresh : R) : kernel thresh (sqrt (Q2R 0)) = 1.
Proof. rewrite Q2R_zero, sqrt_0. apply kernel_at_zero. Qed.

Lemma kernel_sqrt_one (thresh : R) : kernel thresh (sqrt (Q2R 1)) = kernel thresh 1.
Proof. rewrite Q2R_one, sqrt_1. reflexivity. Qed.

Lemma kernel_one_below_one (thresh : R) : 0 < thresh -> kernel thresh 1 < 1.
Proof.
  intros Ht.
  pose proof (@kernel_decreasing thresh Ht 0 1 (Rle_refl 0) Rlt_0_1) as H.
  rewrite kernel_at_zero in H. exact H.
Qed.

Ltac run_grid :=
  repeat (progress (eval_grid;
                    cbn [bind ry rx rz shift score y_shifts x_shifts z_shifts])).

Lemma Q2R_Qred (q : Q) : Q2R q = Q2R (Qred q).
Proof. apply Qeq_eqR. symmetry. apply Qred_correct. Qed.

(** Brings the rational under [Q2R] to lowest terms. *)
Ltac reduce_Q2R :=
  repeat match goal with
  | |- context [Q2R ?q] =>
      lazymatch q with
      | Qred _ => fail
      | _ =>
          let v := eval vm_compute in (Qred q) in
          lazymatch v with
          | q => fail
          | _ => rewrite (Q2R_Qred q); replace (Qred q) with v by (vm_compute; reflexivity)
          end
      end
  end.

(* ------------------------------------------------------------------ *)
(** ** Calls of [compute_shift] followed step by step *)

(** C2 at a call that does not refine.  With z_scale = 2 and the single
    candidate z = 1, which wins with scaled offset 2, the score 1 stays
    below min_score = 5, no refinement is entered, and the z component
    comes back as 2: the scaled offset, not 2 / z_scale = 1. *)
Theorem compute_shift_unrefined_returns_scaled_z :
  returned (compute_shift [Row 0 0 0]%Z [Row 0 0 1]%Z (Some 5) 5 2
              (ints [0]%Z) (ints [0]%Z) (ints [1]%Z) 0 0 0 2)
  = Ok (Row 0%Z 0%Z 2%Z, 1, 5).
Proof.
  unfold compute_shift. cbn [returned]. run_grid. unfold search.
  rewrite get_best_shift_single_points by (try lra; vm_compute; discriminate).
  run_grid. reduce_Q2R. rewrite kernel_sqrt_zero.
  unfold after_coarse. cbv zeta.
  rewrite widen_phase_skip by apply widen_wanted_zero. cbn [bind].
  rewrite refine_phase_skip by (cbn [score]; lra).
  run_grid. reflexivity.
Qed.

(** The same call with z_scale = 1 (and the clouds one unit apart) returns
    z = 1: the unit of the returned z depends on whether the refinement
    ran only through z_scale. *)
Lemma compute_shift_unrefined_unit_scale :
  returned (compute_shift [Row 0 0 0]%Z [Row 0 0 1]%Z (Some 5) 5 2
              (ints [0]%Z) (ints [0]%Z) (ints [1]%Z) 0 0 0 1)
  = Ok (Row 0%Z 0%Z 1%Z, 1, 5).
Proof.
  unfold compute_shift. cbn [returned]. run_grid. unfold search.
  rewrite get_best_shift_single_points by (try lra; vm_compute; discriminate).
  run_grid. reduce_Q2R. rewrite kernel_sqrt_zero.
  unfold after_coarse. cbv zeta.
  rewrite widen_phase_skip by apply widen_wanted_zero. cbn [bind].
  rewrite refine_phase_skip by (cbn [score]; lra).
  run_grid. reflexivity.
Qed.

Ltac enter_refinement :=
  unfold refine_phase; run_grid;
  match goal with
  | |- context [Rltb ?a ?b] =>
      replace (Rltb a b) with true by (symmetry; apply Rltb_true; lra)
  end;
  run_grid.

Ltac keep_coarse_shift :=
  match goal with
  | |- context [Rltb 1 (kernel ?t 1)] =>
      replace (Rltb 1 (kernel t 1)) with false
        by (symmetry; apply Rltb_false; left; apply kernel_one_below_one; lra)
  end;
  run_grid.

Ltac single_point_search :=
  rewrite get_best_shift_single_points by (try lra; vm_compute; discriminate);
  run_grid; reduce_Q2R.

(** C5 at a call that refines.  Base and target are the same point, the
    coarse grid is y in {-2, 0, 2}; the coarse search holds the shift
    (0, 0, 0) with score 1 > min_score.  The first refinement finds nothing
    better and the shift is kept; the final search, from which the shifts
    of the coarse grid are excluded, replaces it without comparing scores:
    the call returns (-1, 0, 0) with the lower score exp(-1/8). *)
Theorem compute_shift_final_search_lowers_score :
  returned (compute_shift [Row 0 0 0]%Z [Row 0 0 0]%Z (Some (1 / 2)) 5 2
              (ints [-2; 0; 2]%Z) (ints [0]%Z) (ints [0]%Z) 0 0 0 1)
  = Ok (Row (-1)%Z 0%Z 0%Z, kernel 2 1, 1 / 2) /\
  kernel 2 1 < 1.
Proof.
  split; [|apply kernel_one_below_one; lra].
  unfold compute_shift. cbn [returned]. run_grid. unfold search.
  single_point_search. rewrite kernel_sqrt_zero.
  unfold after_coarse. cbv zeta.
  rewrite widen_phase_skip by apply widen_wanted_zero. cbn [bind].
  enter_refinement.
  single_point_search. rewrite kernel_sqrt_one.
  keep_coarse_shift.
  single_point_search. rewrite kernel_sqrt_one.
  reflexivity.
Qed.

(** C8 at a call that refines.  The target is the base moved by
    v = (2, -2, 0), which is a candidate of the coarse grid and wins the
    coarse search with score 1; the call returns (1, -2, 0). *)
Theorem compute_shift_misses_translation_on_grid :
  returned (compute_shift [Row 5 5 5]%Z [Row 7 3 5]%Z (Some (1 / 2)) 5 2
              (ints [-2; 0; 2]%Z) (ints [-2; 0; 2]%Z) (ints [0]%Z) 0 0 0 1)
  = Ok (Row 1%Z (-2)%Z 0%Z, kernel 2 1, 1 / 2) /\
  Row 1%Z (-2)%Z 0%Z <> Row 2%Z (-2)%Z 0%Z.
Proof.
  split; [|discriminate].
  unfold compute_shift. cbn [returned]. run_grid. unfold search.
  single_point_search. rewrite kernel_sqrt_zero.
  unfold after_coarse. cbv zeta.
  rewrite widen_phase_skip by apply widen_wanted_zero. cbn [bind].
  enter_refinement.
  single_point_search. rewrite kernel_sqrt_one.
  keep_coarse_shift.
  single_point_search. rewrite kernel_sqrt_one.
  reflexivity.
Qed.

(* ------------------------------------------------------------------ *)
(** ** Calls on a line of candidates, with the order statistics worked out *)

Lemma kernel_sqrt (thresh q : R) :
  0 <= q -> kernel thresh (sqrt q) = exp (- q / (2 * thresh²)).
Proof. intros H. unfold kernel. rewrite Rsqr_sqrt by exact H. reflexivity. Qed.

Lemma Q2R_inject_Z (z : Z) : Q2R (inject_Z z) = IZR z.
Proof. unfold Q2R. cbn [Qnum Qden inject_Z]. rewrite Rinv_1. ring. Qed.

(** Base and target at the origin, thresh = 2: the candidate (y, 0, 0)
    scores exp(-y²/8). *)
Lemma score_on_a_line (y : Z) :
  score_at [zero_row] [zero_row] 2 (Row (inject_Z y) 0%Q 0%Q)
  = exp (- IZR (y * y) / 8).
Proof.
  rewrite score_at_single, kernel_sqrt by apply closeness_nonneg.
  f_equal. unfold closeness, sq_distance_Q, row_add, zero_row. cbn [ry rx rz].
  rewrite !Q2R_plus, !Q2R_mult, !Q2R_minus, !Q2R_plus, Q2R_inject_Z, Q2R_zero.
  rewrite mult_IZR. unfold Rsqr. field.
Qed.

Lemma exp_below_one (x : R) : x < 0 -> exp x < 1.
Proof. intros H. rewrite <- exp_0. apply exp_increasing. exact H. Qed.

Lemma get_best_shift_best_candidate_or_ValueError_witness :
  let origin := [Row 0%Q 0%Q 0%Q] in
  let ys := ints [0; 1; 2; 3]%Z in
  let o := ints [0]%Z in
  (origin <> [] /\ 0 < 2 /\
   (exists y x z, In y ys /\ In x o /\ In z o /\ ignored (Row y x z) None = false) /\
   (forall y x z, In y ys -> In x [] -> In z o -> ignored (Row y x z) None = true)) /\
  get_best_shift origin origin 2 ys o o None
  = Ok (Row 0%Q 0%Q 0%Q, 1,
        (exp (- 4 / 8) + exp (- 1 / 8)) / 2,
        (exp (- 1 / 8) + 1 / 4 * (1 - exp (- 1 / 8)))
        - (exp (- 9 / 8) + 3 / 4 * (exp (- 4 / 8) - exp (- 9 / 8)))) /\
  get_best_shift origin origin 2 ys [] o None = Err ValueError.
Proof.
  intros origin ys o.
  assert (Hb : origin <> []) by discriminate.
  assert (H2 : 0 < 2) by lra.
  assert (Hex : exists y x z, In y ys /\ In x o /\ In z o /\
                              ignored (Row y x z) None = false).
  { exists 0%Q, 0%Q, 0%Q. repeat split; left; reflexivity. }
  assert (Hno : forall y x z, In y ys -> In x [] -> In z o ->
                              ignored (Row y x z) None = true).
  { intros y x z _ []. }
  split; [auto|].
  destruct (@get_best_shift_best_candidate_or_ValueError
              origin origin 2 ys o o None Hb Hb H2) as (_ & Hfound & _).
  destruct (@get_best_shift_best_candidate_or_ValueError
              origin origin 2 ys [] o None Hb Hb H2) as (Hnone & _).
  split; [|apply Hnone; exact Hno].
  destruct (Hfound Hex) as (best & ascending & HP & HS & Heq & Hmem & Hmax).
  clear Hfound Hnone.
  (* the scores of the four candidates *)
  assert (E0 : score_at origin origin 2 (Row 0%Q 0%Q 0%Q) = 1).
  { etransitivity; [exact (score_on_a_line 0)|].
    replace (- IZR (0 * 0) / 8) with 0 by (simpl; lra). apply exp_0. }
  assert (E1 : score_at origin origin 2 (Row 1%Q 0%Q 0%Q) = exp (- 1 / 8)).
  { etransitivity; [exact (score_on_a_line 1)|reflexivity]. }
  assert (E2 : score_at origin origin 2 (Row 2%Q 0%Q 0%Q) = exp (- 4 / 8)).
  { etransitivity; [exact (score_on_a_line 2)|reflexivity]. }
  assert (E3 : score_at origin origin 2 (Row 3%Q 0%Q 0%Q) = exp (- 9 / 8)).
  { etransitivity; [exact (score_on_a_line 3)|reflexivity]. }
  assert (L1 : exp (- 1 / 8) < 1) by (apply exp_below_one; lra).
  assert (L2 : exp (- 4 / 8) < exp (- 1 / 8)) by (apply exp_increasing; lra).
  assert (L3 : exp (- 9 / 8) < exp (- 4 / 8)) by (apply exp_increasing; lra).
  (* their ascending arrangement *)
  assert (HA : ascending = [exp (- 9 / 8); exp (- 4 / 8); exp (- 1 / 8); 1]).
  { apply sorted_perm_unique; [exact HS| |].
    - repeat constructor; lra.
    - apply (perm_trans HP).
      change (Permutation
                [score_at origin origin 2 (Row 0%Q 0%Q 0%Q);
                 score_at origin origin 2 (Row 1%Q 0%Q 0%Q);
                 score_at origin origin 2 (Row 2%Q 0%Q 0%Q);
                 score_at origin origin 2 (Row 3%Q 0%Q 0%Q)]
                [exp (- 9 / 8); exp (- 4 / 8); exp (- 1 / 8); 1]).
      rewrite E0, E1, E2, E3.
      change [1; exp (-1 / 8); exp (-4 / 8); exp (-9 / 8)]
        with (rev [exp (- 9 / 8); exp (- 4 / 8); exp (- 1 / 8); 1]).
      apply Permutation_sym, Permutation_rev. }
  (* the winner *)
  assert (HB : best = Row 0%Q 0%Q 0%Q).
  { destruct Hmem as (Hy & Hx & Hz & _).
    pose proof (Hmax 0%Q 0%Q 0%Q) as Hge.
    change (In 0%Q ys -> In 0%Q o -> In 0%Q o -> ignored (Row 0%Q 0%Q 0%Q) None = false ->
            score_at origin origin 2 (Row 0%Q 0%Q 0%Q) <= score_at origin origin 2 best)
      in Hge.
    specialize (Hge (or_introl eq_refl) (or_introl eq_refl) (or_introl eq_refl) eq_refl).
    rewrite E0 in Hge.
    destruct best as [by_ bx bz]. cbn [ry rx rz] in Hy, Hx, Hz.
    destruct Hx as [<-|[]]. destruct Hz as [<-|[]].
    destruct Hy as [<-|[<-|[<-|[<-|[]]]]].
    - reflexivity.
    - exfalso. change (1 <= score_at origin origin 2 (Row 1%Q 0%Q 0%Q)) in Hge. lra.
    - exfalso. change (1 <= score_at origin origin 2 (Row 2%Q 0%Q 0%Q)) in Hge. lra.
    - exfalso. change (1 <= score_at origin origin 2 (Row 3%Q 0%Q 0%Q)) in Hge. lra. }
  rewrite Heq, HA, HB. clear Heq.
  change (Rsum (map (fun p => exp (- (nearest_distance origin (row_add p (Row 0%Q 0%Q 0%Q)))²
                                   / (2 * 2²))) origin))
    with (score_at origin origin 2 (Row 0%Q 0%Q 0%Q)).
  rewrite E0. cbn [length Nat.even Nat.div Nat.divmod Nat.modulo Nat.sub Nat.mul Nat.add
                     Nat.min nth fst snd].
  f_equal. f_equal. simpl. lra.
Defined.

(** A call with [min_score = None] on three candidates, base and target at
    the origin: the scores are 1, exp(-1/8) and exp(-1/2), the threshold is
    exp(-1/8) + 5 * (1 - exp(-1/2)) / 2 > 1, and the winner (0, 0, 0) goes
    out unrefined. *)
Lemma compute_shift_automatic_min_score_witness :
  returned (compute_shift [Row 0 0 0]%Z [Row 0 0 0]%Z None 5 2
              (ints [0; 1; 2]%Z) (ints [0]%Z) (ints [0]%Z) 0 0 0 1)
  = Ok (Row 0%Z 0%Z 0%Z, 1, exp (- 1 / 8) + 5 * ((1 - exp (- 4 / 8)) / 2)).
Proof.
  destruct (@compute_shift_automatic_min_score
              [Row 0 0 0]%Z [Row 0 0 0]%Z 5 2
              (ints [0; 1; 2]%Z) (ints [0]%Z) (ints [0]%Z) 0 0 0 1)
    as (ascending & HP & HS & Hsame & _).
  assert (E0 : score_at [zero_row] [zero_row] 2 (Row 0%Q 0%Q 0%Q) = 1).
  { etransitivity; [exact (score_on_a_line 0)|].
    replace (- IZR (0 * 0) / 8) with 0 by (simpl; lra). apply exp_0. }
  assert (E1 : score_at [zero_row] [zero_row] 2 (Row 1%Q 0%Q 0%Q) = exp (- 1 / 8)).
  { etransitivity; [exact (score_on_a_line 1)|reflexivity]. }
  assert (E2 : score_at [zero_row] [zero_row] 2 (Row 2%Q 0%Q 0%Q) = exp (- 4 / 8)).
  { etransitivity; [exact (score_on_a_line 2)|reflexivity]. }
  assert (L1 : exp (- 1 / 8) < 1) by (apply exp_below_one; lra).
  assert (L2 : exp (- 4 / 8) < exp (- 1 / 8)) by (apply exp_increasing; lra).
  assert (HA : ascending = [exp (- 4 / 8); exp (- 1 / 8); 1]).
  { apply sorted_perm_unique; [exact HS| |].
    - repeat constructor; lra.
    - apply (perm_trans HP).
      change (Permutation
                [score_at [zero_row] [zero_row] 2 (Row 0%Q 0%Q 0%Q);
                 score_at [zero_row] [zero_row] 2 (Row 1%Q 0%Q 0%Q);
                 score_at [zero_row] [zero_row] 2 (Row 2%Q 0%Q 0%Q)]
                [exp (- 4 / 8); exp (- 1 / 8); 1]).
      rewrite E0, E1, E2.
      change [1; exp (-1 / 8); exp (-4 / 8)]
        with (rev [exp (- 4 / 8); exp (- 1 / 8); 1]).
      apply Permutation_sym, Permutation_rev. }
  rewrite Hsame, HA. clear Hsame HP HS HA.
  cbn [length Nat.even Nat.div Nat.divmod Nat.modulo Nat.sub Nat.mul Nat.add
         Nat.min nth fst snd].
  replace (exp (-1 / 8) +
           5 * (exp (-1 / 8) + INR 2 / 4 * (1 - exp (-1 / 8))
                - (exp (-4 / 8) + INR 2 / 4 * (exp (-1 / 8) - exp (-4 / 8)))))
    with (exp (- 1 / 8) + 5 * ((1 - exp (- 4 / 8)) / 2)) by (simpl; lra).
  assert (B1 : 1 - 1 / 8 <= exp (- 1 / 8)).
  { pose proof (exp_ineq1_le (- 1 / 8)). lra. }
  assert (B2 : exp (- 4 / 8) <= 2 / 3).
  { replace (- 4 / 8) with (- (1 / 2)) by lra. rewrite exp_Ropp.
    pose proof (exp_ineq1_le (1 / 2)) as H.
    assert (Hi : / exp (1 / 2) <= / (3 / 2)).
    { apply Rinv_le_contravar; lra. }
    lra. }
  unfold compute_shift. cbn [returned]. run_grid. unfold search.
  single_point_search. rewrite kernel_sqrt_zero.
  unfold after_coarse. cbv zeta.
  rewrite widen_phase_skip by apply widen_wanted_zero. cbn [bind].
  rewrite refine_phase_skip by (cbn [score]; lra).
  run_grid. reflexivity.
Defined.

(* ------------------------------------------------------------------ *)
(** ** [extend_array] on equally spaced arrays *)

Open Scope Q_scope.

Lemma Qceiling_unique (x : Q) (m : Z) :
  inject_Z (m - 1) < x -> x <= inject_Z m -> Qceiling x = m.
Proof.
  intros Hlo Hhi.
  pose proof (Qle_ceiling x) as H1.
  pose proof (Qceiling_lt x) as H2.
  assert (Ha : (m - 1 < Qceiling x)%Z).
  { rewrite Zlt_Qlt. eapply Qlt_le_trans; eassumption. }
  assert (Hb : (Qceiling x - 1 < m)%Z).
  { rewrite Zlt_Qlt. eapply Qlt_le_trans; eassumption. }
  lia.
Qed.

Lemma arange_uniform (start stop step : Q) (m : Z) :
  ~ step == 0 -> Qceiling ((stop - start) / step) = m ->
  exists l, arange start stop step = Ok l /\ is_uniform l start step (Z.to_nat m).
Proof.
  intros Hs Hm. unfold arange.
  destruct (Qeq_bool step 0) eqn:He.
  { apply Qeq_bool_iff in He. contradiction. }
  rewrite Hm. eexists. split; [reflexivity|].
  split.
  - rewrite length_map, length_seq. reflexivity.
  - intros i Hi.
    rewrite (nth_indep _ 0 (start + inject_Z (Z.of_nat 0) * step))
      by (rewrite length_map, length_seq; exact Hi).
    rewrite (map_nth (fun i => start + inject_Z (Z.of_nat i) * step)).
    rewrite seq_nth by exact Hi. reflexivity.
Qed.

Lemma ediff1d_length (a : array) : length (ediff1d a) = (length a - 1)%nat.
Proof.
  induction a as [|x [|y l] IH]; try reflexivity.
  cbn [ediff1d length] in *. rewrite IH. lia.
Qed.

Lemma ediff1d_nth (a : array) (i : nat) :
  (S i < length a)%nat -> nth i (ediff1d a) 0 = nth (S i) a 0 - nth i a 0.
Proof.
  revert i. induction a as [|x [|y l] IH]; intros i Hi; cbn [length] in Hi; try lia.
  destruct i as [|i].
  - reflexivity.
  - cbn [ediff1d nth]. apply (IH i). cbn [length]. lia.
Qed.

Lemma Qsum_constant (l : list Q) (c : Q) :
  (forall i, (i < length l)%nat -> nth i l 0 == c) ->
  Qsum l == inject_Z (Z.of_nat (length l)) * c.
Proof.
  induction l as [|x l IH]; intros H.
  - cbn. ring.
  - cbn [Qsum fold_right length]. fold (Qsum l).
    rewrite IH by (intros i Hi; apply (H (S i)); cbn [length]; lia).
    rewrite (H 0%nat) by (cbn [length]; lia).
    rewrite Nat2Z.inj_succ. unfold Z.succ. rewrite inject_Z_plus. ring.
Qed.

Lemma mean_ediff1d_uniform (a : array) (a0 step : Q) (n : nat) :
  is_uniform a a0 step n -> (2 <= n)%nat ->
  exists st, mean (ediff1d a) = Some st /\ st == step.
Proof.
  intros (Hlen & Hnth) Hn.
  assert (Hd : forall i, (i < length (ediff1d a))%nat -> nth i (ediff1d a) 0 == step).
  { intros i Hi. rewrite ediff1d_length in Hi.
    rewrite ediff1d_nth by lia.
    rewrite (Hnth (S i)) by lia. rewrite (Hnth i) by lia.
    rewrite Nat2Z.inj_succ. unfold Z.succ. rewrite inject_Z_plus. ring. }
  pose proof (Qsum_constant (ediff1d a) Hd) as Hsum.
  pose proof (ediff1d_length a) as Hl.
  unfold mean. destruct (ediff1d a) as [|d l] eqn:He.
  { cbn [length] in Hl. lia. }
  eexists. split; [reflexivity|].
  rewrite Hsum. field.
  intros H0. cbn [length] in H0.
  unfold Qeq in H0. cbn [Qnum Qden inject_Z] in H0. lia.
Qed.

Lemma fold_left_Qmin_head (l : list Q) (x : Q) :
  (forall y, In y l -> x <= y) -> fold_left Qmin l x = x.
Proof.
  revert x. induction l as [|y l IH]; intros x H; cbn [fold_left].
  - reflexivity.
  - assert (Hxy : Qmin x y = x).
    { unfold Qmin. pose proof (H y (or_introl eq_refl)) as Hle.
      apply Qle_bool_iff in Hle. rewrite Hle. reflexivity. }
    rewrite Hxy. apply IH. intros z Hz. apply H. right. exact Hz.
Qed.

Lemma fold_left_Qmax_last (l : list Q) (x : Q) :
  (forall i, (S i < length (x :: l))%nat -> nth i (x :: l) 0 <= nth (S i) (x :: l) 0) ->
  fold_left Qmax l x = nth (length l) (x :: l) 0.
Proof.
  revert x. induction l as [|y l IH]; intros x H; cbn [fold_left].
  - reflexivity.
  - assert (Hxy : Qmax x y = y).
    { unfold Qmax. pose proof (H 0%nat ltac:(cbn [length]; lia)) as Hle.
      cbn [nth] in Hle. apply Qle_bool_iff in Hle. rewrite Hle. reflexivity. }
    rewrite Hxy. rewrite IH.
    + reflexivity.
    + intros i Hi. apply (H (S i)). cbn [length] in *. lia.
Qed.

Lemma uniform_step_le (a : array) (a0 step : Q) (n i j : nat) :
  is_uniform a a0 step n -> 0 <= step -> (i <= j)%nat -> (j < n)%nat ->
  nth i a 0 <= nth j a 0.
Proof.
  intros (Hlen & Hnth) Hs Hij Hj.
  rewrite (Hnth i) by lia. rewrite (Hnth j) by lia.
  assert (H : inject_Z (Z.of_nat i) <= inject_Z (Z.of_nat j)).
  { rewrite <- Zle_Qle. lia. }
  apply Qplus_le_r. apply Qmult_le_compat_r; assumption.
Qed.

Lemma array_min_uniform (a : array) (a0 step : Q) (n : nat) :
  is_uniform a a0 step n -> 0 <= step -> (1 <= n)%nat ->
  exists lo, array_min a = Ok lo /\ lo == a0.
Proof.
  intros Hu Hs Hn. pose proof Hu as (Hlen & Hnth).
  destruct a as [|x l]; [cbn [length] in Hlen; lia|].
  exists x. split.
  - cbn [array_min]. f_equal. apply fold_left_Qmin_head.
    intros y Hy. apply (In_nth _ _ 0) in Hy. destruct Hy as (j & Hj & <-).
    apply (@uniform_step_le (x :: l) a0 step n 0%nat (S j) Hu Hs); cbn [length] in *; lia.
  - rewrite (Hnth 0%nat) by lia. cbn. ring.
Qed.

Lemma array_max_uniform (a : array) (a0 step : Q) (n : nat) :
  is_uniform a a0 step n -> 0 <= step -> (1 <= n)%nat ->
  exists hi, array_max a = Ok hi /\ hi == a0 + inject_Z (Z.of_nat (n - 1)) * step.
Proof.
  intros Hu Hs Hn. pose proof Hu as (Hlen & Hnth).
  destruct a as [|x l]; [cbn [length] in Hlen; lia|].
  exists (nth (length l) (x :: l) 0). split.
  - cbn [array_max]. f_equal. apply fold_left_Qmax_last.
    intros i Hi. apply (@uniform_step_le (x :: l) a0 step n i (S i) Hu Hs); lia.
  - cbn [length] in Hlen. rewrite (Hnth (length l)) by lia.
    replace (n - 1)%nat with (length l) by lia. reflexivity.
Qed.

Lemma inject_Z_sub (a b : Z) : inject_Z (a - b) == inject_Z a - inject_Z b.
Proof. unfold Z.sub. rewrite inject_Z_plus, inject_Z_opp. ring. Qed.

Lemma Qceiling_minus_half (w : Z) : Qceiling (inject_Z w - (1 # 2)) = w.
Proof.
  apply Qceiling_unique.
  - rewrite inject_Z_sub. change (inject_Z 1) with 1. lra.
  - lra.
Qed.

Lemma is_uniform_app3 (l1 l2 l3 : array) (a0 step : Q) (n1 n2 n3 : nat) :
  is_uniform l1 a0 step n1 ->
  is_uniform l2 (a0 + inject_Z (Z.of_nat n1) * step) step n2 ->
  is_uniform l3 (a0 + inject_Z (Z.of_nat (n1 + n2)) * step) step n3 ->
  is_uniform (l1 ++ l2 ++ l3) a0 step (n1 + n2 + n3).
Proof.
  intros (L1 & N1) (L2 & N2) (L3 & N3). split.
  - rewrite !length_app. lia.
  - intros i Hi.
    destruct (Nat.lt_ge_cases i n1) as [H1|H1].
    { rewrite app_nth1 by lia. apply N1. exact H1. }
    rewrite app_nth2 by lia. rewrite L1.
    destruct (Nat.lt_ge_cases (i - n1) n2) as [H2|H2].
    { rewrite app_nth1 by lia. rewrite N2 by exact H2.
      replace (Z.of_nat i) with (Z.of_nat n1 + Z.of_nat (i - n1))%Z by lia.
      rewrite inject_Z_plus. ring. }
    rewrite app_nth2 by lia. rewrite L2.
    destruct (Nat.lt_ge_cases (i - n1 - n2) n3) as [H3|H3].
    { rewrite N3 by exact H3.
      replace (Z.of_nat i) with (Z.of_nat (n1 + n2) + Z.of_nat (i - n1 - n2))%Z by lia.
      rewrite inject_Z_plus. ring. }
    lia.
Qed.

Lemma is_uniform_eq (a : array) (a0 a0' step step' : Q) (n : nat) :
  a0 == a0' -> step == step' -> is_uniform a a0 step n -> is_uniform a a0' step' n.
Proof.
  intros Ha Hs (L & N). split; [exact L|].
  intros i Hi. rewrite (N i Hi), Ha, Hs. reflexivity.
Qed.

(** Extension on both sides of an ascending, equally spaced array: [w]
    more values below and [w] more above, with the same step. *)
Lemma extend_array_uniform (a : array) (a0 step : Q) (n : nat) (w : Z) :
  is_uniform a a0 step n -> 0 < step -> (2 <= n)%nat -> (0 < w)%Z ->
  exists a',
    extend_array a w "both" = Ok a' /\
    is_uniform a' (a0 - inject_Z w * step) step (n + 2 * Z.to_nat w).
Proof.
  intros Hu Hs Hn Hw.
  assert (Hs0 : 0 <= step) by lra.
  destruct (mean_ediff1d_uniform Hu Hn) as (st & Hmean & Hst).
  destruct (@array_min_uniform a a0 step n Hu Hs0 ltac:(lia)) as (lo & Hmin & Hlo).
  destruct (@array_max_uniform a a0 step n Hu Hs0 ltac:(lia)) as (hi & Hmax & Hhi).
  assert (Hst0 : ~ st == 0) by (rewrite Hst; lra).
  destruct (@arange_uniform (lo - inject_Z w * st) lo st w Hst0) as (lb & Hlb & Ulb).
  { rewrite <- (Qceiling_Z w) at 2. apply Qceiling_comp. field. exact Hst0. }
  destruct (@arange_uniform (hi + st) (hi + inject_Z w * st + st / 2) st w Hst0)
    as (la & Hla & Ula).
  { rewrite <- (Qceiling_minus_half w) at 2. apply Qceiling_comp. field. exact Hst0. }
  unfold extend_array.
  replace (w =? 0)%Z with false by (symmetry; apply Z.eqb_neq; lia).
  rewrite Hmean, Hmin. cbn [bind]. rewrite Hlb. cbn [bind].
  rewrite Hmax. cbn [bind]. rewrite Hla. cbn [bind].
  change (direction_of_string "both") with both. cbv iota.
  eexists. split; [reflexivity|].
  replace (n + 2 * Z.to_nat w)%nat
    with (Z.to_nat w + n + Z.to_nat w)%nat by lia.
  apply is_uniform_app3.
  - apply (@is_uniform_eq lb (lo - inject_Z w * st) _ st step); [|exact Hst|exact Ulb].
    rewrite Hlo, Hst. reflexivity.
  - apply (@is_uniform_eq a a0 _ step step); [|reflexivity|exact Hu].
    rewrite Z2Nat.id by lia. ring.
  - apply (@is_uniform_eq la (hi + st) _ st step); [|exact Hst|exact Ula].
    rewrite Hhi, Hst. rewrite Nat2Z.inj_add, Z2Nat.id by lia.
    replace (Z.of_nat (n - 1)) with (Z.of_nat n - 1)%Z by lia.
    rewrite inject_Z_plus, inject_Z_sub. change (inject_Z 1) with 1. ring.
Qed.

Lemma is_uniform_nil (l : array) (a0 step : Q) : is_uniform l a0 step 0 -> l = [].
Proof. intros (H & _). destruct l; [reflexivity|discriminate]. Qed.

Lemma is_uniform_empty (a0 step : Q) : is_uniform [] a0 step 0.
Proof. split; [reflexivity|]. intros i Hi. lia. Qed.

(** The two pieces [ext_below] and [ext_above] that [extend_array] builds on
    an ascending, equally spaced array, and what it returns for each
    [direction]. *)
Lemma extend_array_pieces (a : array) (a0 step : Q) (n : nat) (w : Z) (dir : string) :
  is_uniform a a0 step n -> 0 < step -> (2 <= n)%nat -> w <> 0%Z ->
  exists lb la,
    is_uniform lb (a0 - inject_Z w * step) step (Z.to_nat w) /\
    is_uniform la (a0 + inject_Z (Z.of_nat n) * step) step (Z.to_nat w) /\
    extend_array a w dir =
      match direction_of_string dir with
      | below => Ok (lb ++ a)
      | above => Ok (a ++ la)
      | both => Ok (lb ++ a ++ la)
      | other _ => Err ValueError
      end.
Proof.
  intros Hu Hs Hn Hw.
  assert (Hs0 : 0 <= step) by lra.
  destruct (mean_ediff1d_uniform Hu Hn) as (st & Hmean & Hst).
  destruct (@array_min_uniform a a0 step n Hu Hs0 ltac:(lia)) as (lo & Hmin & Hlo).
  destruct (@array_max_uniform a a0 step n Hu Hs0 ltac:(lia)) as (hi & Hmax & Hhi).
  assert (Hst0 : ~ st == 0) by (rewrite Hst; lra).
  destruct (@arange_uniform (lo - inject_Z w * st) lo st w Hst0) as (lb & Hlb & Ulb).
  { rewrite <- (Qceiling_Z w) at 2. apply Qceiling_comp. field. exact Hst0. }
  destruct (@arange_uniform (hi + st) (hi + inject_Z w * st + st / 2) st w Hst0)
    as (la & Hla & Ula).
  { rewrite <- (Qceiling_minus_half w) at 2. apply Qceiling_comp. field. exact Hst0. }
  exists lb, la. split; [|split].
  - apply (@is_uniform_eq lb (lo - inject_Z w * st) _ st step); [|exact Hst|exact Ulb].
    rewrite Hlo, Hst. reflexivity.
  - apply (@is_uniform_eq la (hi + st) _ st step); [|exact Hst|exact Ula].
    rewrite Hhi, Hst.
    replace (Z.of_nat (n - 1)) with (Z.of_nat n - 1)%Z by lia.
    rewrite inject_Z_sub. change (inject_Z 1) with 1. ring.
  - unfold extend_array.
    replace (w =? 0)%Z with false by (symmetry; apply Z.eqb_neq; exact Hw).
    rewrite Hmean, Hmin. cbn [bind]. rewrite Hlb. cbn [bind].
    rewrite Hmax. cbn [bind]. rewrite Hla. cbn [bind]. reflexivity.
Qed.

Lemma uniform_example : is_uniform (ints [-2; 0; 2]%Z) (-2)%Q 2%Q 3.
Proof.
  split; [reflexivity|]. intros i Hi.
  destruct i as [|[|[|i]]]; try lia; vm_compute; reflexivity.
Qed.

Lemma integer_axis_step (a : array) (a0 s : Z) (n : nat) (w : Z) :
  integer_axis a a0 s n w -> 0 < inject_Z s.
Proof.
  intros (_ & Hs & _). change 0 with (inject_Z 0). rewrite <- Zlt_Qlt. lia.
Qed.

Lemma integer_axis_example : integer_axis (ints [-2; 0; 2]%Z) (-2) 2 3 2.
Proof.
  split; [exact uniform_example|]. split; [lia|]. vm_compute. discriminate.
Qed.

Close Scope Q_scope.

(* ------------------------------------------------------------------ *)
(** ** The widened search *)

Lemma extend_array_short_array (a : array) (w : Z) (dir : string) :
  (length a <= 1)%nat -> w <> 0%Z -> extend_array a w dir = Err ValueError.
Proof.
  intros Hl Hw. unfold extend_array.
  apply Z.eqb_neq in Hw. rewrite Hw.
  destruct a as [|x [|y l]]; try reflexivity.
  cbn [length] in Hl. lia.
Qed.

Lemma extend_array_error (a : array) (w : Z) (dir : string) (e : exn) :
  extend_array a w dir = Err e -> e = ValueError.
Proof.
  unfold extend_array. destruct (w =? 0)%Z; [discriminate|].
  destruct (mean (ediff1d a)) as [step|]; [|congruence].
  destruct (array_min a) as [lo|e1] eqn:Hlo;
    [|cbn [bind]; apply array_min_error in Hlo; congruence].
  cbn [bind].
  destruct (arange _ lo step) as [lb|e1] eqn:Hb;
    [|cbn [bind]; apply arange_error in Hb; congruence].
  cbn [bind].
  destruct (array_max a) as [hi|e1] eqn:Hhi;
    [|cbn [bind]; apply array_max_error in Hhi; congruence].
  cbn [bind].
  destruct (arange (hi + step) _ step) as [la|e1] eqn:Ha;
    [|cbn [bind]; apply arange_error in Ha; congruence].
  cbn [bind]. destruct (direction_of_string dir); congruence.
Qed.

Lemma scaled_in (zs : array) (z_scale z : Q) :
  In z zs -> In (z * z_scale)%Q (scaled zs z_scale).
Proof. intros H. unfold scaled. apply in_map_iff. exists z. auto. Qed.









(* ------------------------------------------------------------------ *)
(** ** The order statistics on small samples *)

Ltac decide_Rltb :=
  repeat match goal with
  | |- context [Rltb ?a ?b] =>
      first [ replace (Rltb a b) with true by (symmetry; apply Rltb_true; lra)
            | replace (Rltb a b) with false by (symmetry; apply Rltb_false; lra) ]
  end.

Ltac sort_sample :=
  repeat (progress (cbn [fold_right insert_sorted]; decide_Rltb)).

Example median_odd : median [3; 1; 2] = 2.
Proof. unfold median, sort. sort_sample. reflexivity. Qed.

Example median_even : median [4; 1; 3; 2] = 5 / 2.
Proof. unfold median, sort. sort_sample. cbn. lra. Qed.

Example iqr_four : iqr [4; 1; 3; 2] = 3 / 2.
Proof. unfold iqr, quartile, sort. sort_sample. cbn. lra. Qed.

(* ------------------------------------------------------------------ *)
(** ** The returned shift when no refinement runs *)

(** Without a widened search and without refinement, [compute_shift]
    returns the winner of the coarse search as it stands: its z component
    is the candidate offset times z_scale. *)
Lemma after_coarse_unrefined (base tr : cloud) (ms thresh : R)
    (ys xs zs : array) (yw xw zw : Z) (z_scale : Q) (s : qrow) (sc : R) :
  widen_wanted sc ms yw xw zw = false -> sc <= ms ->
  after_coarse base tr ms thresh ys xs zs yw xw zw z_scale s sc
  = Ok (astype_int s, sc, ms).
Proof.
  intros Hw Hle. unfold after_coarse. cbv zeta.
  rewrite widen_phase_skip by exact Hw. cbn [bind].
  rewrite refine_phase_skip by exact Hle. reflexivity.
Qed.

(* ------------------------------------------------------------------ *)
(** ** The result of the refinement *)

Lemma get_best_shift_ok_searched (base tr : cloud) (thresh : R) (ys xs zs : array)
    (ig : option (list qrow)) (c : qrow) (sc med iq : R) :
  get_best_shift base tr thresh ys xs zs ig = Ok (c, sc, med, iq) ->
  In c (searched_shifts ys xs zs ig) /\ sc = score_at base tr thresh c.
Proof.
  intros H.
  destruct base as [|p base].
  { rewrite get_best_shift_empty_cloud in H by (left; reflexivity). discriminate. }
  destruct tr as [|t tr].
  { rewrite get_best_shift_empty_cloud in H by (right; reflexivity). discriminate. }
  destruct (searched_shifts ys xs zs ig) as [|c0 cs] eqn:Hs.
  { rewrite get_best_shift_nothing_to_search in H by exact Hs. discriminate. }
  destruct (@get_best_shift_argmax (p :: base) (t :: tr) thresh ys xs zs ig)
    as (i & Hi & Heq & _); try discriminate.
  { rewrite Hs. discriminate. }
  cbv zeta in Heq. rewrite Heq in H. inversion H; subst.
  split; [|reflexivity]. rewrite <- Hs. apply nth_In. exact Hi.
Qed.

Lemma unscale_ok (v z_scale q : Q) :
  unscale v z_scale = Ok q -> q = (v / z_scale)%Q.
Proof. unfold unscale. destruct (Qeq_bool z_scale 0); congruence. Qed.

(** Whenever the refinement is entered and returns, what it returns is the
    winner of the final search with its score, whatever the scores found
    before; and that winner is no shift of the initial grid. *)
Lemma refine_phase_returns_final_search (base tr : cloud) (thresh : R)
    (initial : list qrow) (ms : R) (z_scale : Q) (st : search_state)
    (s : qrow) (sc : R) :
  ms < score st ->
  refine_phase base tr thresh initial ms z_scale st = Ok (s, sc) ->
  exists ys xs zs c med iq,
    get_best_shift base tr thresh ys xs (scaled zs z_scale) (Some initial)
    = Ok (c, sc, med, iq) /\
    s = Row (ry c) (rx c) (rz c / z_scale)%Q /\
    row_mem c initial = false.
Proof.
  intros Hlt. unfold refine_phase.
  apply Rltb_true in Hlt. rewrite Hlt.
  destruct (refined_shifts (y_shifts st) _ half_scale 2) as [ys1|e]; [|discriminate].
  cbn [bind].
  destruct (refined_shifts (x_shifts st) _ half_scale 2) as [xs1|e]; [|discriminate].
  cbn [bind].
  destruct (unscale (rz (shift st)) z_scale) as [z1|e]; [|discriminate].
  cbn [bind].
  destruct (refined_shifts (z_shifts st) z1 half_scale 2) as [zs1|e]; [|discriminate].
  cbn [bind].
  destruct (get_best_shift base tr thresh ys1 xs1 (scaled zs1 z_scale) (Some initial))
    as [[[[shift2 score2] m2] i2]|e]; [|discriminate].
  cbn [bind].
  destruct (refined_shifts ys1 _ tiny_scale 1) as [ys2|e]; [|discriminate].
  cbn [bind].
  destruct (refined_shifts xs1 _ tiny_scale 1) as [xs2|e]; [|discriminate].
  cbn [bind].
  destruct (unscale _ z_scale) as [z2|e]; [|discriminate].
  cbn [bind].
  destruct (refined_shifts zs1 z2 tiny_scale 1) as [zs2|e]; [|discriminate].
  cbn [bind].
  destruct (get_best_shift base tr thresh ys2 xs2 (scaled zs2 z_scale) (Some initial))
    as [[[[c sc'] med] iq]|e] eqn:G; [|discriminate].
  cbn [bind].
  destruct (unscale (rz c) z_scale) as [z3|e] eqn:U; [|discriminate].
  cbn [bind]. intros H. inversion H; subst.
  exists ys2, xs2, zs2, c, med, iq. split; [exact G|]. split.
  - rewrite (unscale_ok _ _ U). reflexivity.
  - apply get_best_shift_ok_searched in G. destruct G as (Hin & _).
    apply searched_shifts_in in Hin. destruct Hin as (_ & _ & _ & Hig).
    exact Hig.
Qed.

(** Hence a call that refines without having widened never returns a shift
    of its own coarse grid, even when that shift scored best. *)
Lemma refined_result_off_coarse_grid (base tr : cloud) (ms thresh : R)
    (ys xs zs : array) (z_scale : Q) (s : qrow) (sc : R)
    (r : zrow) (sc' ms' : R) :
  ms < sc ->
  after_coarse base tr ms thresh ys xs zs 0 0 0 z_scale s sc = Ok (r, sc', ms') ->
  exists c,
    r = astype_int (Row (ry c) (rx c) (rz c / z_scale)%Q) /\
    sc' = score_at base tr thresh c /\
    forall y x z, In y ys -> In x xs -> In z zs ->
                  row_eqb c (Row y x (z * z_scale)%Q) = false.
Proof.
  intros Hlt. unfold after_coarse. cbv zeta.
  rewrite widen_phase_skip by apply widen_wanted_zero. cbn [bind].
  destruct (refine_phase _ _ _ _ _ _ _) as [[s' sc'']|e] eqn:Href; [|discriminate].
  cbn [bind]. intros H. inversion H; subst.
  apply refine_phase_returns_final_search in Href; [|exact Hlt].
  destruct Href as (ys' & xs' & zs' & c & med & iq & G & -> & Hout).
  exists c. split; [reflexivity|]. split.
  - apply get_best_shift_ok_searched in G. apply G.
  - intros y x z Iy Ix Iz.
    destruct (row_eqb c (Row y x (z * z_scale)%Q)) eqn:He; [|reflexivity].
    assert (Hm : row_mem c (meshgrid_rows ys xs (scaled zs z_scale)) = true).
    { apply row_mem_true. exists (Row y x (z * z_scale)%Q). split; [|exact He].
      apply meshgrid_rows_in. cbn [ry rx rz].
      repeat split; try assumption. apply scaled_in. exact Iz. }
    congruence.
Qed.

(* ------------------------------------------------------------------ *)
(** ** The edges of the widened search *)

(** The test of line 158 is on the largest count: counts below 0 do not
    ask for a widened search. *)
Lemma widen_wanted_positive_count (sc ms : R) (yw xw zw : Z) :
  widen_wanted sc ms yw xw zw = true -> (0 < yw \/ 0 < xw \/ 0 < zw)%Z.
Proof. intros H. apply widen_wanted_iff in H. lia. Qed.

(** An axis with a single value has no spacing: extending it fails. *)
Lemma extend_array_single_value (x : Q) (w : Z) (dir : string) :
  w <> 0%Z -> extend_array [x] w dir = Err ValueError.
Proof.
  intros H. unfold extend_array.
  apply Z.eqb_neq in H. rewrite H. reflexivity.
Qed.

(* ------------------------------------------------------------------ *)
(** * Further properties of the shift search *)

(** ** [extend_array]: the three directions and the counts outside 1, 2, ... *)

Open Scope Q_scope.

Lemma extend_array_below_uniform (a : array) (a0 step : Q) (n : nat) (w : Z) :
  is_uniform a a0 step n -> 0 < step -> (2 <= n)%nat -> (0 < w)%Z ->
  exists lb, extend_array a w "below" = Ok (lb ++ a) /\
             length lb = Z.to_nat w /\
             is_uniform (lb ++ a) (a0 - inject_Z w * step) step (Z.to_nat w + n).
Proof.
  intros Hu Hs Hn Hw.
  destruct (@extend_array_pieces a a0 step n w "below" Hu Hs Hn ltac:(lia))
    as (lb & la & Ub & Ua & E).
  change (direction_of_string "below") with below in E. cbv iota in E.
  exists lb. split; [exact E|]. split; [apply Ub|].
  replace (Z.to_nat w + n)%nat with (Z.to_nat w + n + 0)%nat by lia.
  replace (lb ++ a) with (lb ++ a ++ []) by (rewrite app_nil_r; reflexivity).
  apply is_uniform_app3; [exact Ub| |apply is_uniform_empty].
  apply (@is_uniform_eq a a0 _ step step); [|reflexivity|exact Hu].
  rewrite Z2Nat.id by lia. ring.
Qed.

Lemma extend_array_above_uniform (a : array) (a0 step : Q) (n : nat) (w : Z) :
  is_uniform a a0 step n -> 0 < step -> (2 <= n)%nat -> (0 < w)%Z ->
  exists la, extend_array a w "above" = Ok (a ++ la) /\
             length la = Z.to_nat w /\
             is_uniform (a ++ la) a0 step (n + Z.to_nat w).
Proof.
  intros Hu Hs Hn Hw.
  destruct (@extend_array_pieces a a0 step n w "above" Hu Hs Hn ltac:(lia))
    as (lb & la & Ub & Ua & E).
  change (direction_of_string "above") with above in E. cbv iota in E.
  exists la. split; [exact E|]. split; [apply Ua|].
  change (a ++ la) with ([] ++ a ++ la).
  replace (n + Z.to_nat w)%nat with (0 + n + Z.to_nat w)%nat by lia.
  apply is_uniform_app3; [apply is_uniform_empty| |].
  - apply (@is_uniform_eq a a0 _ step step); [|reflexivity|exact Hu].
    change (inject_Z (Z.of_nat 0)) with 0. ring.
  - apply (@is_uniform_eq la (a0 + inject_Z (Z.of_nat n) * step) _ step step);
      [|reflexivity|exact Ua].
    reflexivity.
Qed.



(** X2.  A count below 0 adds nothing: on an ascending, equally spaced
    array with at least two values, [extend_array] returns the array it was
    given, for each of the three directions. *)
Theorem extend_array_negative_count (a : array) (a0 step : Q) (n : nat) (w : Z)
    (dir : string) :
  is_uniform a a0 step n -> 0 < step -> (2 <= n)%nat -> (w < 0)%Z ->
  recognised dir ->
  extend_array a w dir = Ok a.
Proof.
  intros Hu Hs Hn Hw Hd.
  destruct (@extend_array_pieces a a0 step n w dir Hu Hs Hn ltac:(lia))
    as (lb & la & Ub & Ua & E).
  replace (Z.to_nat w) with 0%nat in Ub, Ua by lia.
  apply is_uniform_nil in Ub, Ua. subst lb la.
  rewrite E. destruct Hd as [ -> | [ -> | -> ] ].
  - reflexivity.
  - change (direction_of_string "above") with above. cbv iota.
    rewrite app_nil_r. reflexivity.
  - change (direction_of_string "both") with both. cbv iota.
    cbn [app]. rewrite app_nil_r. reflexivity.
Qed.

Lemma extend_array_negative_count_witness :
  (is_uniform (ints [-2; 0; 2]%Z) (-2) 2 3 /\ 0 < 2 /\ (2 <= 3)%nat /\ (-3 < 0)%Z
   /\ recognised "both") /\
  extend_array (ints [-2; 0; 2]%Z) (-3) "both" = Ok (ints [-2; 0; 2]%Z).
Proof.
  assert (Hw : (-3 < 0)%Z) by lia.
  assert (H3 : (2 <= 3)%nat) by lia.
  assert (Hs : 0 < 2) by reflexivity.
  assert (Hd : recognised "both") by (right; right; reflexivity).
  split; [repeat split; try assumption; apply uniform_example|].
  apply (@extend_array_negative_count (ints [-2; 0; 2]%Z) (-2) 2 3 (-3) "both"
           uniform_example Hs H3 Hw Hd).
Defined.

(** X3.  An array with fewer than two values has no spacing: for every
    count other than 0 and every direction, recognised or not,
    [extend_array] fails with [ValueError]; with count 0 it returns the
    array. *)
Theorem extend_array_needs_two_values (a : array) (w : Z) (dir : string) :
  (length a <= 1)%nat ->
  (w <> 0%Z -> extend_array a w dir = Err ValueError) /\
  (w = 0%Z -> extend_array a w dir = Ok a).
Proof.
  intros Hl. split.
  - intros Hw. apply extend_array_short_array; assumption.
  - intros ->. reflexivity.
Qed.

Lemma extend_array_needs_two_values_witness :
  (length [5 # 1] <= 1)%nat /\
  extend_array [5 # 1] 3 "above" = Err ValueError /\
  extend_array [5 # 1] 0 "above" = Ok [5 # 1].
Proof.
  assert (Hl : (length [5 # 1] <= 1)%nat) by (simpl; lia).
  split; [exact Hl|].
  destruct (@extend_array_needs_two_values [5 # 1] 3 "above" Hl) as (H1 & _).
  destruct (@extend_array_needs_two_values [5 # 1] 0 "above" Hl) as (_ & H2).
  split; [apply H1; discriminate|apply H2; reflexivity].
Defined.

Close Scope Q_scope.

(* ------------------------------------------------------------------ *)
(** ** [refined_shifts]: the window and the new step *)

Open Scope Q_scope.











Close Scope Q_scope.

(* ------------------------------------------------------------------ *)
(** ** The score does not depend on the order of the target points *)

Lemma nearest_distance_perm (X X' : cloud) (p : qrow) :
  Permutation X X' -> nearest_distance X p = nearest_distance X' p.
Proof.
  intros HP.
  destruct X as [|t X].
  { apply Permutation_nil in HP. subst. reflexivity. }
  destruct X' as [|t' X'].
  { apply Permutation_sym, Permutation_nil in HP. discriminate. }
  destruct (@nearest_distance_spec (t :: X) p ltac:(discriminate)) as ((u & Hu & Eu) & Lu).
  destruct (@nearest_distance_spec (t' :: X') p ltac:(discriminate)) as ((u' & Hu' & Eu') & Lu').
  apply Rle_antisym.
  - rewrite Eu'. apply Lu. apply (Permutation_in _ (Permutation_sym HP)). exact Hu'.
  - rewrite Eu. apply Lu'. apply (Permutation_in _ HP). exact Hu.
Qed.

Lemma Rsum_perm (l l' : list R) : Permutation l l' -> Rsum l = Rsum l'.
Proof.
  induction 1 as [|x l l' _ IH|x y l|l l' l'' _ IH1 _ IH2]; cbn [Rsum fold_right] in *.
  - reflexivity.
  - fold (Rsum l) (Rsum l') in *. rewrite IH. reflexivity.
  - lra.
  - congruence.
Qed.

Lemma score_at_perm (base base' tr tr' : cloud) (thresh : R) (c : qrow) :
  Permutation base base' -> Permutation tr tr' ->
  score_at base tr thresh c = score_at base' tr' thresh c.
Proof.
  intros Hb Ht. unfold score_at.
  rewrite (map_ext _ (fun p => kernel thresh (nearest_distance tr' (row_add p c)))).
  - apply Rsum_perm. apply Permutation_map. exact Hb.
  - intros p. rewrite (nearest_distance_perm _ Ht). reflexivity.
Qed.

(** X8.  [get_best_shift] does not depend on the order of the rows of the
    target cloud: on integer pixel coordinates and integer candidate
    offsets, reordering the target changes neither the result nor the
    exception. *)
Theorem get_best_shift_order_of_target (base tr tr' : list zrow) (thresh : R)
    (ys xs zs : list Z) (ig : option (list qrow)) :
  Permutation tr tr' ->
  get_best_shift (map to_float base) (map to_float tr) thresh
    (ints ys) (ints xs) (ints zs) ig
  = get_best_shift (map to_float base) (map to_float tr') thresh
      (ints ys) (ints xs) (ints zs) ig.
Proof.
  intros Ht.
  destruct base as [|p base].
  { rewrite !get_best_shift_empty_cloud by (left; reflexivity). reflexivity. }
  destruct tr as [|t tr].
  { apply Permutation_nil in Ht. subst. reflexivity. }
  assert (Ht' : map to_float tr' <> []).
  { destruct tr'; [|discriminate].
    apply Permutation_sym, Permutation_nil in Ht. discriminate. }
  rewrite !get_best_shift_eval by (assumption || discriminate).
  cbv zeta.
  assert (E : grid_scores (map to_float (p :: base)) (map to_float (t :: tr)) thresh
                (ints ys) (ints xs) (ints zs) ig
              = grid_scores (map to_float (p :: base)) (map to_float tr') thresh
                  (ints ys) (ints xs) (ints zs) ig).
  { unfold grid_scores. apply map_ext. intros c.
    apply score_at_perm; [apply Permutation_refl|].
    apply Permutation_map. exact Ht. }
  rewrite E. reflexivity.
Qed.

Lemma get_best_shift_order_of_target_witness :
  let base := [Row 0 0 0; Row 3 1 0]%Z in
  let tr := [Row 0 0 1; Row 3 1 1; Row 7 7 7]%Z in
  Permutation tr (rev tr) /\
  get_best_shift (map to_float base) (map to_float tr) 2
    (ints [0]%Z) (ints [-1; 0; 1]%Z) (ints [0; 1]%Z) None
  = get_best_shift (map to_float base) (map to_float (rev tr)) 2
      (ints [0]%Z) (ints [-1; 0; 1]%Z) (ints [0; 1]%Z) None.
Proof.
  cbv zeta.
  assert (Ht : Permutation [Row 0 0 1; Row 3 1 1; Row 7 7 7]%Z
                 (rev [Row 0 0 1; Row 3 1 1; Row 7 7 7]%Z)) by apply Permutation_rev.
  split; [exact Ht|].
  apply get_best_shift_order_of_target. exact Ht.
Defined.

(* ------------------------------------------------------------------ *)
(** ** Moving the clouds *)

Lemma sq_distance_translate (p c w t : qrow) :
  sq_distance (row_add p (row_add c w)) (row_add t w) = sq_distance (row_add p c) t.
Proof.
  unfold sq_distance, row_add. cbn [ry rx rz].
  rewrite !Q2R_plus. unfold Rsqr. ring.
Qed.

Lemma nearest_distance_ext (X : cloud) (f : qrow -> qrow) (p q : qrow) :
  (forall t, euclidean p (f t) = euclidean q t) ->
  nearest_distance (map f X) p = nearest_distance X q.
Proof.
  intros H. destruct X as [|t X]; [reflexivity|].
  cbn [map nearest_distance]. rewrite H, map_map.
  f_equal. apply map_ext. exact H.
Qed.

(** X9.  The score only sees relative positions: moving the target cloud
    by w and the candidate shift by w leaves the score of the candidate
    unchanged, and so does moving the base cloud by w while taking w off
    the candidate. *)
Theorem score_moves_with_the_clouds (base tr : cloud) (thresh : R) (c w : qrow) :
  candidate_score (Fitted (translate w tr)) base thresh (row_add c w)
  = candidate_score (Fitted tr) base thresh c /\
  candidate_score (Fitted tr) (translate w base) thresh c
  = candidate_score (Fitted tr) base thresh (row_add w c).
Proof.
  destruct base as [|b base]; [split; reflexivity|].
  assert (Hb : b :: base <> []) by discriminate.
  assert (Hb' : translate w (b :: base) <> []) by discriminate.
  rewrite !candidate_score_total by assumption.
  split; f_equal.
  - unfold score_at, translate. f_equal. apply map_ext. intros p.
    f_equal. apply nearest_distance_ext. intros t.
    unfold euclidean. rewrite sq_distance_translate. reflexivity.
  - unfold score_at, translate. rewrite map_map. f_equal. apply map_ext. intros p.
    f_equal. apply nearest_distance_eqb.
    apply row_eqb_spec. unfold row_add. cbn [ry rx rz].
    repeat split; ring.
Qed.

(* ------------------------------------------------------------------ *)
(** ** More target points *)

Lemma kernel_antitone (thresh a b : R) :
  0 < thresh -> 0 <= a -> a <= b -> kernel thresh b <= kernel thresh a.
Proof.
  intros Ht Ha [Hlt | ->]; [|lra].
  left. apply (kernel_decreasing Ht Ha Hlt).
Qed.

Lemma Rsum_le (A : Type) (f g : A -> R) (l : list A) :
  (forall a, In a l -> f a <= g a) -> Rsum (map f l) <= Rsum (map g l).
Proof.
  induction l as [|a l IH]; intros H; cbn [map Rsum fold_right].
  - lra.
  - fold (Rsum (map f l)) (Rsum (map g l)).
    pose proof (H a (or_introl eq_refl)).
    specialize (IH (fun b Hb => H b (or_intror Hb))). lra.
Qed.

(** X10.  Spots added to the target cloud never lower the score of a
    candidate: if every target point of a non-empty cloud is kept, each
    nearest-neighbour distance can only shrink. *)
Theorem score_grows_with_target (base tr tr' : cloud) (thresh : R) (c : qrow) :
  0 < thresh -> base <> [] -> tr <> [] -> incl tr tr' ->
  exists s s',
    candidate_score (Fitted tr) base thresh c = Ok s /\
    candidate_score (Fitted tr') base thresh c = Ok s' /\
    s <= s'.
Proof.
  intros Ht Hb Hne Hincl.
  exists (score_at base tr thresh c), (score_at base tr' thresh c).
  rewrite !candidate_score_total by assumption.
  split; [reflexivity|]. split; [reflexivity|].
  unfold score_at. apply Rsum_le. intros p _.
  apply (kernel_antitone Ht).
  - apply nearest_distance_nonneg.
  - destruct (@nearest_distance_spec tr (row_add p c) Hne) as ((u & Hu & Eu) & _).
    assert (Hne' : tr' <> []).
    { intros ->. apply (Hincl u Hu). }
    destruct (@nearest_distance_spec tr' (row_add p c) Hne') as (_ & L).
    rewrite Eu. apply L. apply Hincl. exact Hu.
Qed.

Lemma score_grows_with_target_witness :
  let base := [Row 0%Q 0%Q 0%Q] in
  let tr := [Row 5%Q 0%Q 0%Q] in
  let tr' := [Row 1%Q 0%Q 0%Q; Row 5%Q 0%Q 0%Q] in
  (0 < 2 /\ base <> [] /\ tr <> [] /\ incl tr tr') /\
  exists s s',
    candidate_score (Fitted tr) base 2 zero_row = Ok s /\
    candidate_score (Fitted tr') base 2 zero_row = Ok s' /\
    s <= s'.
Proof.
  cbv zeta.
  assert (Ht : 0 < 2) by lra.
  assert (Hb : [Row 0%Q 0%Q 0%Q] <> []) by discriminate.
  assert (Hne : [Row 5%Q 0%Q 0%Q] <> []) by discriminate.
  assert (Hi : incl [Row 5%Q 0%Q 0%Q] [Row 1%Q 0%Q 0%Q; Row 5%Q 0%Q 0%Q]).
  { intros r [ <- | [] ]. right. left. reflexivity. }
  split; [auto|].
  apply score_grows_with_target; assumption.
Defined.

(* ------------------------------------------------------------------ *)
(** ** A full score *)

Lemma sum_sq_zero (a b c : R) :
  a * a + b * b + c * c = 0 -> a = 0 /\ b = 0 /\ c = 0.
Proof.
  intros H.
  assert (Ha : 0 <= a * a) by nra.
  assert (Hb : 0 <= b * b) by nra.
  assert (Hc : 0 <= c * c) by nra.
  repeat split; apply Rsqr_0_uniq; unfold Rsqr; lra.
Qed.

Lemma euclidean_zero_iff (p t : qrow) : euclidean p t = 0 <-> row_eqb p t = true.
Proof.
  split.
  - intros H. unfold euclidean in H.
    apply sqrt_eq_0 in H; [|apply sq_distance_nonneg].
    unfold sq_distance, Rsqr in H.
    apply sum_sq_zero in H. destruct H as (Hy & Hx & Hz).
    apply row_eqb_spec. repeat split; apply eqR_Qeq; lra.
  - intros H. unfold euclidean. rewrite (@sq_distance_eqb p t t H).
    unfold sq_distance, Rsqr.
    replace ((Q2R (ry t) - Q2R (ry t)) * (Q2R (ry t) - Q2R (ry t)) +
             (Q2R (rx t) - Q2R (rx t)) * (Q2R (rx t) - Q2R (rx t)) +
             (Q2R (rz t) - Q2R (rz t)) * (Q2R (rz t) - Q2R (rz t))) with 0 by ring.
    apply sqrt_0.
Qed.

Lemma nearest_zero_iff (X : cloud) (p : qrow) :
  X <> [] -> (nearest_distance X p = 0 <-> coincides X p).
Proof.
  intros Hne.
  destruct (@nearest_distance_spec X p Hne) as ((u & Hu & Eu) & L).
  split.
  - intros H. exists u. split; [exact Hu|]. apply euclidean_zero_iff. congruence.
  - intros (t & Ht & He). apply euclidean_zero_iff in He.
    pose proof (L t Ht). pose proof (nearest_distance_nonneg X p). lra.
Qed.

Lemma score_at_as_shift_score (base tr : cloud) (thresh : R) (c : qrow) :
  score_at base tr thresh c
  = shift_score (map (fun p => nearest_distance tr (row_add p c)) base) thresh.
Proof. unfold score_at, shift_score. rewrite map_map. reflexivity. Qed.

Lemma score_full_iff (base tr : cloud) (thresh : R) (c : qrow) :
  0 < thresh -> tr <> [] ->
  (score_at base tr thresh c = INR (length base) <->
   forall p, In p base -> coincides tr (row_add p c)).
Proof.
  intros Ht Hne. rewrite score_at_as_shift_score. split.
  - intros H p Hp.
    rewrite <- (length_map (fun p => nearest_distance tr (row_add p c))) in H.
    apply (shift_score_full_zero Ht) in H.
    + rewrite Forall_forall in H. apply (nearest_zero_iff _ Hne).
      apply H. apply in_map_iff. exists p. auto.
    + apply Forall_forall. intros d Hd. apply in_map_iff in Hd.
      destruct Hd as (q & <- & _). apply nearest_distance_nonneg.
  - intros H.
    assert (E : map (fun p => nearest_distance tr (row_add p c)) base
                = repeat 0 (length base)).
    { clear Ht. induction base as [|b base IH]; [reflexivity|].
      cbn [map length repeat]. f_equal.
      - apply (nearest_zero_iff _ Hne). apply H. left. reflexivity.
      - apply IH. intros p Hp. apply H. right. exact Hp. }
    rewrite E. apply shift_score_all_zero.
Qed.

Lemma get_best_shift_ok_clouds (base tr : cloud) (thresh : R) (ys xs zs : array)
    (ig : option (list qrow)) (r : qrow * R * R * R) :
  get_best_shift base tr thresh ys xs zs ig = Ok r -> base <> [] /\ tr <> [].
Proof.
  intros H. split; intros ->.
  - rewrite get_best_shift_empty_cloud in H by (left; reflexivity). discriminate.
  - rewrite get_best_shift_empty_cloud in H by (right; reflexivity). discriminate.
Qed.

Lemma score_at_nonneg (base tr : cloud) (thresh : R) (c : qrow) :
  0 <= score_at base tr thresh c.
Proof.
  unfold score_at. induction base as [|p base IH]; cbn [map Rsum fold_right].
  - lra.
  - fold (Rsum (map (fun p => kernel thresh (nearest_distance tr (row_add p c))) base)).
    pose proof (kernel_pos thresh (nearest_distance tr (row_add p c))). lra.
Qed.

(** X11.  The best score is a soft count of matches: on integer pixel
    coordinates it lies between 0 and the number n of base points, and it is
    n when the returned shift puts every base point onto a point of the
    target cloud. *)
Theorem best_score_counts_matches (base tr : list zrow) (thresh : R)
    (ys xs zs : array) (ig : option (list qrow)) (c : qrow) (sc med iq : R) :
  0 < thresh ->
  get_best_shift (map to_float base) (map to_float tr) thresh ys xs zs ig
  = Ok (c, sc, med, iq) ->
  0 <= sc <= INR (length base) /\
  ((forall p, In p base -> coincides (map to_float tr) (row_add (to_float p) c)) ->
   sc = INR (length base)).
Proof.
  intros Ht H.
  destruct (get_best_shift_ok_clouds _ _ _ _ _ _ _ H) as (_ & Hne).
  apply get_best_shift_ok_searched in H. destruct H as (_ & ->).
  rewrite <- (length_map to_float base).
  split; [split; [apply score_at_nonneg|apply score_at_le_count; exact Ht]|].
  intros Hall. apply (score_full_iff _ _ Ht Hne).
  intros p Hp. apply in_map_iff in Hp. destruct Hp as (p0 & <- & Hp0).
  apply Hall. exact Hp0.
Qed.


Lemma small_search : 
  get_best_shift [Row 0%Q 0%Q 0%Q] [Row 0%Q 0%Q 1%Q] 2
    (ints [0]%Z) (ints [0]%Z) (ints [0; 1]%Z) None
  = Ok (Row 0%Q 0%Q 1%Q, 1,
        median (grid_scores [Row 0%Q 0%Q 0%Q] [Row 0%Q 0%Q 1%Q] 2
                  (ints [0]%Z) (ints [0]%Z) (ints [0; 1]%Z) None),
        iqr (grid_scores [Row 0%Q 0%Q 0%Q] [Row 0%Q 0%Q 1%Q] 2
               (ints [0]%Z) (ints [0]%Z) (ints [0; 1]%Z) None)).
Proof.
  rewrite get_best_shift_single_points by (try lra; vm_compute; discriminate).
  run_grid. reduce_Q2R. rewrite kernel_sqrt_zero. reflexivity.
Qed.

Lemma small_search_pixels :
  get_best_shift (map to_float [Row 0 0 0]%Z) (map to_float [Row 0 0 1]%Z) 2
    (ints [0]%Z) (ints [0]%Z) (ints [0; 1]%Z) None
  = Ok (Row 0%Q 0%Q 1%Q, 1,
        median (grid_scores [Row 0%Q 0%Q 0%Q] [Row 0%Q 0%Q 1%Q] 2
                  (ints [0]%Z) (ints [0]%Z) (ints [0; 1]%Z) None),
        iqr (grid_scores [Row 0%Q 0%Q 0%Q] [Row 0%Q 0%Q 1%Q] 2
               (ints [0]%Z) (ints [0]%Z) (ints [0; 1]%Z) None)).
Proof. exact small_search. Qed.

Lemma best_score_counts_matches_witness :
  (0 < 2 /\
   forall p, In p [Row 0 0 0]%Z ->
             coincides (map to_float [Row 0 0 1]%Z)
               (row_add (to_float p) (Row 0%Q 0%Q 1%Q))) /\
  0 <= 1 <= INR (length [Row 0 0 0]%Z) /\
  1 = INR (length [Row 0 0 0]%Z).
Proof.
  assert (Ht : 0 < 2) by lra.
  assert (Hon : forall p, In p [Row 0 0 0]%Z ->
                          coincides (map to_float [Row 0 0 1]%Z)
                            (row_add (to_float p) (Row 0%Q 0%Q 1%Q))).
  { intros p [<-|[]]. exists (Row 0%Q 0%Q 1%Q). split; [left; reflexivity|].
    vm_compute. reflexivity. }
  split; [split; assumption|].
  destruct (@best_score_counts_matches _ _ _ _ _ _ _ _ _ _ _ Ht small_search_pixels)
    as (Hr & Hfull).
  split; [exact Hr|apply Hfull; exact Hon].
Defined.

(* ------------------------------------------------------------------ *)
(** ** A target that is the base moved by a vector *)







(* ------------------------------------------------------------------ *)
(** ** Ties *)

Lemma split_at_nth (A : Type) (l : list A) (d : A) (i : nat) :
  (i < length l)%nat -> l = firstn i l ++ nth i l d :: skipn (S i) l.
Proof.
  revert i. induction l as [|a l IH]; intros i Hi; cbn [length] in Hi; [lia|].
  destruct i as [|i]; [reflexivity|].
  cbn [firstn nth skipn app]. f_equal. apply IH. lia.
Qed.

Lemma nth_firstn_lt (A : Type) (l : list A) (d : A) (i j : nat) :
  (j < i)%nat -> nth j (firstn i l) d = nth j l d.
Proof.
  revert i j. induction l as [|a l IH]; intros i j H.
  - rewrite firstn_nil. reflexivity.
  - destruct i as [|i]; [lia|]. destruct j as [|j]; [reflexivity|].
    cbn [firstn nth]. apply IH. lia.
Qed.

Lemma in_skipn_in (A : Type) (l : list A) (n : nat) (a : A) :
  In a (skipn n l) -> In a l.
Proof.
  revert n. induction l as [|b l IH]; intros n H.
  - rewrite skipn_nil in H. exact H.
  - destruct n as [|n]; [exact H|]. right. apply (IH n). exact H.
Qed.

(** X13.  Among candidates with the same, largest score, [get_best_shift]
    returns the one that comes first in the order of the search (for the
    full grid: z slowest, then y, then x): every candidate before the
    returned one has a strictly smaller score, every candidate at all has a
    score that is not larger. *)
Theorem get_best_shift_first_of_ties (base tr : cloud) (thresh : R)
    (ys xs zs : array) (ig : option (list qrow)) (c : qrow) (sc med iq : R) :
  get_best_shift base tr thresh ys xs zs ig = Ok (c, sc, med, iq) ->
  exists before after,
    searched_shifts ys xs zs ig = before ++ c :: after /\
    (forall b, In b before -> score_at base tr thresh b < sc) /\
    (forall a, In a after -> score_at base tr thresh a <= sc).
Proof.
  intros H.
  destruct (get_best_shift_ok_clouds _ _ _ _ _ _ _ H) as (Hb & Ht).
  assert (Hs : searched_shifts ys xs zs ig <> []).
  { intros E. rewrite get_best_shift_nothing_to_search in H by exact E. discriminate. }
  destruct (@get_best_shift_argmax base tr thresh ys xs zs ig Hb Ht Hs)
    as (i & Hi & Heq & Hmax & Hfirst).
  cbv zeta in Heq, Hmax, Hfirst. rewrite Heq in H. inversion H; subst. clear H.
  set (l := searched_shifts ys xs zs ig) in *.
  exists (firstn i l), (skipn (S i) l). split; [|split].
  - apply split_at_nth. exact Hi.
  - intros b Hb'. apply (In_nth _ _ zero_row) in Hb'. destruct Hb' as (j & Hj & <-).
    rewrite length_firstn in Hj.
    rewrite nth_firstn_lt by lia. apply Hfirst. lia.
  - intros a Ha. apply Hmax. apply (in_skipn_in _ _ _ Ha).
Qed.

Lemma get_best_shift_first_of_ties_witness :
  exists before after,
    searched_shifts (ints [0]%Z) (ints [0]%Z) (ints [0; 1]%Z) None
    = before ++ Row 0%Q 0%Q 1%Q :: after /\
    (forall b, In b before ->
               score_at [Row 0%Q 0%Q 0%Q] [Row 0%Q 0%Q 1%Q] 2 b < 1) /\
    (forall a, In a after ->
               score_at [Row 0%Q 0%Q 0%Q] [Row 0%Q 0%Q 1%Q] 2 a <= 1).
Proof. exact (get_best_shift_first_of_ties _ _ _ _ _ _ _ small_search). Defined.

(* ------------------------------------------------------------------ *)
(** ** What [compute_shift] returns *)

Lemma scaled_cloud_length (z_scale : Q) (a : list zrow) :
  length (map to_float (scale_z_inplace z_scale a)) = length a.
Proof. unfold scale_z_inplace. rewrite !length_map. reflexivity. Qed.

Lemma widen_phase_result (base tr : cloud) (thresh : R) (initial : list qrow)
    (ms : R) (yw xw zw : Z) (z_scale : Q) (st st' : search_state) :
  widen_phase base tr thresh initial ms yw xw zw z_scale st = Ok st' ->
  st' = st \/
  exists ys xs zs ig med iq,
    get_best_shift base tr thresh ys xs zs ig = Ok (shift st', score st', med, iq).
Proof.
  unfold widen_phase. destruct (widen_wanted _ _ _ _ _).
  - destruct (extend_array (y_shifts st) yw "both") as [ys|e]; [|discriminate].
    cbn [bind].
    destruct (extend_array (x_shifts st) xw "both") as [xs|e]; [|discriminate].
    cbn [bind].
    destruct (extend_array (z_shifts st) zw "both") as [zs|e]; [|discriminate].
    cbn [bind].
    destruct (get_best_shift base tr thresh ys xs (scaled zs z_scale) (Some initial))
      as [[[[c sc] med] iq]|e] eqn:G; [|discriminate].
    cbn [bind]. intros H. inversion H; subst. cbn [score shift]. right.
    exists ys, xs, (scaled zs z_scale), (Some initial), med, iq. exact G.
  - intros H. inversion H; subst. left. reflexivity.
Qed.

Lemma row_unscaled_one (c : qrow) (z_scale : Q) :
  (z_scale == 1)%Q -> row_eqb (Row (ry c) (rx c) (rz c / z_scale)%Q) c = true.
Proof.
  intros H. apply row_eqb_spec. cbn [ry rx rz].
  split; [reflexivity|]. split; [reflexivity|]. rewrite H. field.
Qed.

(** X14.  Whatever phases ran, for z_scale <> 0 the score [compute_shift]
    returns lies between 0 and the number n of base points; with
    z_scale = 1 it is the score of one candidate shift, and the returned
    vector is that candidate cast to integers. *)
Theorem compute_shift_score_of_a_candidate
    (base tr : list zrow) (min_score : option R) (k thresh : R)
    (ys xs zs : array) (yw xw zw : Z) (z_scale : Q) (r : zrow) (sc ms : R) :
  0 < thresh -> ~ (z_scale == 0)%Q ->
  returned (compute_shift base tr min_score k thresh ys xs zs yw xw zw z_scale)
  = Ok (r, sc, ms) ->
  0 <= sc <= INR (length base) /\
  ((z_scale == 1)%Q ->
   exists c,
     sc = score_at (map to_float base) (map to_float tr) thresh c /\
     r = astype_int c).
Proof.
  intros Ht _ H. unfold compute_shift in H. cbn [returned] in H.
  rewrite search_unfold in H.
  set (b := map to_float (scale_z_inplace z_scale base)) in *.
  set (t := map to_float (scale_z_inplace z_scale tr)) in *.
  assert (Hrange : forall c, 0 <= score_at b t thresh c <= INR (length base)).
  { intros c. rewrite <- (scaled_cloud_length z_scale base). fold b.
    split; [apply score_at_nonneg|apply score_at_le_count; exact Ht]. }
  destruct (get_best_shift b t thresh ys xs (scaled zs z_scale) None)
    as [[[[s0 sc0] med] iq]|e] eqn:G0; [|discriminate].
  cbn [bind] in H. unfold after_coarse in H. cbv zeta in H.
  set (m0 := match min_score with
             | None => med + k * iq
             | Some m => m
             end) in H.
  destruct (widen_phase _ _ _ _ _ _ _ _ _ _) as [st|e] eqn:W; [|discriminate].
  cbn [bind] in H.
  destruct (refine_phase _ _ _ _ _ _ _) as [[s1 sc1]|e] eqn:F; [|discriminate].
  cbn [bind] in H. inversion H; subst r sc. clear H.
  assert (P1 : score st = score_at b t thresh (shift st)).
  { apply widen_phase_result in W.
    destruct W as [->|(ys' & xs' & zs' & ig & m' & i' & G)].
    - cbn [score shift]. apply get_best_shift_ok_searched in G0. apply G0.
    - apply get_best_shift_ok_searched in G. apply G. }
  assert (Hone : (z_scale == 1)%Q ->
                 b = map to_float base /\ t = map to_float tr).
  { intros H1. unfold b, t. rewrite !(scale_z_inplace_one _ H1). auto. }
  destruct (Rlt_dec m0 (score st)) as [Hlt|Hge].
  - destruct (refine_phase_returns_final_search _ _ _ _ _ _ Hlt F)
      as (ys' & xs' & zs' & c & m' & i' & G & -> & _).
    apply get_best_shift_ok_searched in G. destruct G as (_ & ->).
    split; [apply Hrange|]. intros H1.
    destruct (Hone H1) as (<- & <-).
    exists (Row (ry c) (rx c) (rz c / z_scale)%Q). split; [|reflexivity].
    symmetry. apply score_at_eqb. apply row_unscaled_one. exact H1.
  - rewrite refine_phase_skip in F by lra. inversion F; subst.
    split; [rewrite P1; apply Hrange|]. intros H1.
    destruct (Hone H1) as (<- & <-).
    exists (shift st). split; [exact P1|reflexivity].
Qed.

(** X15.  A [min_score] given by the caller comes back unchanged as third
    result. *)
Theorem compute_shift_returns_given_min_score
    (base tr : list zrow) (m k thresh : R)
    (ys xs zs : array) (yw xw zw : Z) (z_scale : Q) (r : zrow) (sc ms : R) :
  returned (compute_shift base tr (Some m) k thresh ys xs zs yw xw zw z_scale)
  = Ok (r, sc, ms) ->
  ms = m.
Proof.
  unfold compute_shift. cbn [returned]. rewrite search_unfold.
  destruct (get_best_shift _ _ _ _ _ _ _) as [[[[s0 sc0] med] iq]|e]; [|discriminate].
  cbn [bind]. apply after_coarse_min_score.
Qed.

(** A call that refines, followed step by step: the coarse grid is
    y in {0, 2}, base and target are the same point. *)
Lemma refining_call_coarse :
  get_best_shift (map to_float (scale_z_inplace 1 [Row 0 0 0]%Z))
    (map to_float (scale_z_inplace 1 [Row 0 0 0]%Z)) 2
    (ints [0; 2]%Z) (ints [0]%Z) (scaled (ints [0]%Z) 1) None
  = Ok (Row 0%Q 0%Q 0%Q, 1,
        median (grid_scores [Row 0%Q 0%Q 0%Q] [Row 0%Q 0%Q 0%Q] 2
                  (ints [0; 2]%Z) (ints [0]%Z) (scaled (ints [0]%Z) 1) None),
        iqr (grid_scores [Row 0%Q 0%Q 0%Q] [Row 0%Q 0%Q 0%Q] 2
               (ints [0; 2]%Z) (ints [0]%Z) (scaled (ints [0]%Z) 1) None)).
Proof.
  run_grid. single_point_search. rewrite kernel_sqrt_zero. reflexivity.
Qed.

Lemma refining_call_returns :
  returned (compute_shift [Row 0 0 0]%Z [Row 0 0 0]%Z (Some (1 / 2)) 5 2
              (ints [0; 2]%Z) (ints [0]%Z) (ints [0]%Z) 0 0 0 1)
  = Ok (Row (-1)%Z 0%Z 0%Z, kernel 2 1, 1 / 2).
Proof.
  unfold compute_shift. cbn [returned]. unfold search.
  rewrite refining_call_coarse. cbn [bind].
  unfold after_coarse. cbv zeta.
  rewrite widen_phase_skip by apply widen_wanted_zero. cbn [bind].
  run_grid. enter_refinement.
  single_point_search. rewrite kernel_sqrt_one.
  keep_coarse_shift.
  single_point_search. rewrite kernel_sqrt_one.
  reflexivity.
Qed.

Lemma compute_shift_returns_given_min_score_witness :
  returned (compute_shift [Row 0 0 0]%Z [Row 0 0 0]%Z (Some (1 / 2)) 5 2
              (ints [0; 2]%Z) (ints [0]%Z) (ints [0]%Z) 0 0 0 1)
  = Ok (Row (-1)%Z 0%Z 0%Z, kernel 2 1, 1 / 2) /\
  1 / 2 = 1 / 2.
Proof.
  split; [exact refining_call_returns|].
  eapply compute_shift_returns_given_min_score. exact refining_call_returns.
Defined.

Lemma compute_shift_score_of_a_candidate_witness :
  (0 < 2 /\ ~ (1 == 0)%Q /\ (1 == 1)%Q) /\
  0 <= kernel 2 1 <= 1 /\
  exists c,
    kernel 2 1 = score_at [Row 0%Q 0%Q 0%Q] [Row 0%Q 0%Q 0%Q] 2 c /\
    Row (-1)%Z 0%Z 0%Z = astype_int c.
Proof.
  assert (Ht : 0 < 2) by lra.
  assert (Hz : ~ (1 == 0)%Q) by discriminate.
  assert (H1 : (1 == 1)%Q) by reflexivity.
  split; [auto|].
  destruct (@compute_shift_score_of_a_candidate _ _ _ _ _ _ _ _ _ _ _ _ _ _ _
              Ht Hz refining_call_returns) as (Hr & Hc).
  split; [cbn [length INR] in Hr; exact Hr|].
  exact (Hc H1).
Defined.

(** X16.  A call with z_scale = 1 that refines without having widened
    returns, cast to integers, a candidate of its final search that is no
    shift of its own coarse grid, the winner of the coarse search included:
    both refinement searches leave the coarse grid out, and the result of
    the last one is returned as it is.  (This is said of the candidate, not
    of its integer part, which can fall back on a coarse shift.) *)
Theorem compute_shift_refined_leaves_coarse_grid
    (base tr : list zrow) (m k thresh : R) (ys xs zs : array) (z_scale : Q)
    (s : qrow) (sc0 med iq : R) (r : zrow) (sc ms : R) :
  (z_scale == 1)%Q ->
  let b := map to_float (scale_z_inplace z_scale base) in
  let t := map to_float (scale_z_inplace z_scale tr) in
  get_best_shift b t thresh ys xs (scaled zs z_scale) None = Ok (s, sc0, med, iq) ->
  m < sc0 ->
  returned (compute_shift base tr (Some m) k thresh ys xs zs 0 0 0 z_scale)
  = Ok (r, sc, ms) ->
  exists c,
    r = astype_int c /\
    sc = score_at b t thresh c /\
    row_eqb c s = false /\
    forall y x z, In y ys -> In x xs -> In z zs -> row_eqb c (Row y x z) = false.
Proof.
  intros H1 b t G0 Hlt H. unfold compute_shift in H. cbn [returned] in H.
  rewrite search_unfold in H. fold b t in H. rewrite G0 in H. cbn [bind] in H.
  destruct (@refined_result_off_coarse_grid _ _ _ _ _ _ _ _ _ _ _ _ _ Hlt H)
    as (c & Hr & Hsc & Hout).
  set (c' := Row (ry c) (rx c) (rz c / z_scale)%Q) in *.
  assert (Ec : row_eqb c' c = true) by (apply row_unscaled_one; exact H1).
  assert (Hoff : forall y x z, In y ys -> In x xs -> In z zs ->
                               row_eqb c' (Row y x z) = false).
  { intros y x z Iy Ix Iz.
    destruct (row_eqb c' (Row y x z)) eqn:He; [|reflexivity].
    assert (Hc : row_eqb c (Row y x (z * z_scale)%Q) = true).
    { apply (@row_eqb_trans _ c' _); [apply row_eqb_sym; exact Ec|].
      apply (@row_eqb_trans _ (Row y x z) _); [exact He|].
      apply row_eqb_spec. cbn [ry rx rz].
      split; [reflexivity|]. split; [reflexivity|]. rewrite H1. ring. }
    rewrite (Hout y x z Iy Ix Iz) in Hc. discriminate. }
  exists c'. split; [exact Hr|]. split; [|split; [|exact Hoff]].
  - rewrite Hsc. symmetry. apply score_at_eqb. exact Ec.
  - apply get_best_shift_ok_searched in G0. destruct G0 as (Hin & _).
    cbn [searched_shifts] in Hin. apply meshgrid_rows_in in Hin.
    destruct Hin as (Hy & Hx & Hz).
    unfold scaled in Hz. apply in_map_iff in Hz. destruct Hz as (z & Ez & Hz).
    destruct (row_eqb c' s) eqn:He; [|reflexivity].
    assert (Hs : row_eqb s (Row (ry s) (rx s) z) = true).
    { apply row_eqb_spec. cbn [ry rx rz].
      split; [reflexivity|]. split; [reflexivity|]. rewrite <- Ez, H1. ring. }
    rewrite <- (Hoff (ry s) (rx s) z Hy Hx Hz).
    symmetry. apply (@row_eqb_trans _ s _); assumption.
Qed.

Lemma compute_shift_refined_leaves_coarse_grid_witness :
  ((1 == 1)%Q /\ 1 / 2 < 1) /\
  exists c,
    Row (-1)%Z 0%Z 0%Z = astype_int c /\
    kernel 2 1 = score_at [Row 0%Q 0%Q 0%Q] [Row 0%Q 0%Q 0%Q] 2 c /\
    row_eqb c (Row 0%Q 0%Q 0%Q) = false /\
    row_eqb c (Row 2%Q 0%Q 0%Q) = false.
Proof.
  assert (H1 : (1 == 1)%Q) by reflexivity.
  assert (Hlt : 1 / 2 < 1) by lra.
  split; [split; assumption|].
  destruct (@compute_shift_refined_leaves_coarse_grid
              [Row 0 0 0]%Z [Row 0 0 0]%Z (1 / 2) 5 2
              (ints [0; 2]%Z) (ints [0]%Z) (ints [0]%Z) 1%Q
              _ _ _ _ _ _ _ H1 refining_call_coarse Hlt refining_call_returns)
    as (c & Hr & Hsc & Hs & Hoff).
  exists c. split; [exact Hr|]. split; [exact Hsc|]. split; [exact Hs|].
  apply Hoff.
  - right. left. reflexivity.
  - left. reflexivity.
  - left. reflexivity.
Defined.

(* ------------------------------------------------------------------ *)
(** ** A grid with a single candidate *)

Lemma scaled_cloud_nonempty (z_scale : Q) (a : list zrow) :
  a <> [] -> map to_float (scale_z_inplace z_scale a) <> [].
Proof. destruct a; [congruence|discriminate]. Qed.

Lemma get_best_shift_one_candidate (b t : cloud) (thresh : R) (y x z : Q) :
  b <> [] -> t <> [] ->
  get_best_shift b t thresh [y] [x] [z] None
  = Ok (Row y x z, score_at b t thresh (Row y x z),
        score_at b t thresh (Row y x z), 0).
Proof.
  intros Hb Ht. rewrite get_best_shift_eval by assumption.
  unfold grid_scores. cbn [searched_shifts meshgrid_rows flat_map map app].
  cbn [argmax argmax_from bind nth]. rewrite median_singleton, iqr_singleton.
  reflexivity.
Qed.

Lemma setdiff2d_self_single (c : qrow) : setdiff2d [c] [c] = [].
Proof.
  unfold setdiff2d, row_mem. cbn [filter existsb].
  rewrite row_eqb_refl. reflexivity.
Qed.

(** X17.  On a grid with one value per axis, [compute_shift] with
    [min_score = None] always returns that candidate, with its score as
    the threshold; with a [min_score] below the candidate's score it
    raises [ValueError]: the refinement keeps one-value axes as they are,
    the initial grid is left out of the refined search, and nothing
    remains to score. *)
Theorem compute_shift_one_candidate
    (base tr : list zrow) (k thresh : R) (y x z : Q) (yw xw zw : Z) (z_scale : Q) :
  base <> [] -> tr <> [] ->
  let b := map to_float (scale_z_inplace z_scale base) in
  let t := map to_float (scale_z_inplace z_scale tr) in
  let c := Row y x (z * z_scale)%Q in
  let sc := score_at b t thresh c in
  (exists ms,
      returned (compute_shift base tr None k thresh [y] [x] [z] yw xw zw z_scale)
      = Ok (astype_int c, sc, ms) /\ ms = sc) /\
  (forall m,
      m < sc -> ~ (z_scale == 0)%Q ->
      returned (compute_shift base tr (Some m) k thresh [y] [x] [z] yw xw zw z_scale)
      = Err ValueError).
Proof.
  intros Hb Ht b t c sc.
  assert (Hb' : b <> []) by (apply scaled_cloud_nonempty; exact Hb).
  assert (Ht' : t <> []) by (apply scaled_cloud_nonempty; exact Ht).
  assert (G : get_best_shift b t thresh [y] [x] (scaled [z] z_scale) None
              = Ok (c, sc, sc, 0)).
  { apply get_best_shift_one_candidate; assumption. }
  split.
  - exists (sc + k * 0). split; [|lra].
    unfold compute_shift. cbn [returned]. fold b t. rewrite search_unfold, G.
    cbn [bind]. apply after_coarse_unrefined; [|lra].
    unfold widen_wanted.
    replace (Rltb sc (sc + k * 0)) with false
      by (symmetry; apply Rltb_false; lra).
    reflexivity.
  - intros m Hm Hz.
    unfold compute_shift. cbn [returned]. fold b t. rewrite search_unfold, G.
    cbn [bind]. unfold after_coarse. cbv zeta.
    rewrite widen_phase_skip.
    2:{ cbn [score]. unfold widen_wanted.
        replace (Rltb sc m) with false by (symmetry; apply Rltb_false; lra).
        reflexivity. }
    cbn [bind]. unfold refine_phase. cbn [score shift y_shifts x_shifts z_shifts].
    replace (Rltb m sc) with true by (symmetry; apply Rltb_true; exact Hm).
    assert (Hu : forall v, unscale v z_scale = Ok (v / z_scale)%Q).
    { intros v. unfold unscale.
      destruct (Qeq_bool z_scale 0) eqn:E; [|reflexivity].
      apply Qeq_bool_iff in E. contradiction. }
    cbn [refined_shifts length Nat.eqb bind]. rewrite Hu.
    cbn [refined_shifts length Nat.eqb bind].
    rewrite get_best_shift_nothing_to_search; [reflexivity|].
    cbn [searched_shifts scaled map meshgrid_rows flat_map app].
    apply setdiff2d_self_single.
Qed.

Lemma compute_shift_one_candidate_witness :
  let base := [Row 0 0 0]%Z in
  let b := map to_float (scale_z_inplace 1 base) in
  let sc := score_at b b 2 (Row 0 0 (0 * 1))%Q in
  (base <> [] /\ 1 / 2 < sc /\ ~ (1 == 0)%Q) /\
  (exists ms,
      returned (compute_shift base base None 5 2 [0%Q] [0%Q] [0%Q] 0 0 0 1)
      = Ok (astype_int (Row 0 0 (0 * 1))%Q, sc, ms) /\ ms = sc) /\
  returned (compute_shift base base (Some (1 / 2)) 5 2 [0%Q] [0%Q] [0%Q] 0 0 0 1)
  = Err ValueError.
Proof.
  cbv zeta.
  assert (Hb : [Row 0 0 0]%Z <> []) by discriminate.
  assert (Hz : ~ (1 == 0)%Q) by discriminate.
  assert (Hsc : 1 / 2 < score_at (map to_float (scale_z_inplace 1 [Row 0 0 0]%Z))
                          (map to_float (scale_z_inplace 1 [Row 0 0 0]%Z)) 2
                          (Row 0 0 (0 * 1))%Q).
  { run_grid. rewrite score_at_single. run_grid. reduce_Q2R.
    rewrite kernel_sqrt_zero. lra. }
  destruct (@compute_shift_one_candidate [Row 0 0 0]%Z [Row 0 0 0]%Z 5 2
              0%Q 0%Q 0%Q 0 0 0 1%Q Hb Hb) as (H1 & H2).
  split; [auto|]. split; [exact H1|].
  apply H2; assumption.
Defined.

(* ------------------------------------------------------------------ *)
(** ** Extending in two steps *)

Open Scope Q_scope.

Lemma is_uniform_same (l l' : array) (a0 step : Q) (n : nat) :
  is_uniform l a0 step n -> is_uniform l' a0 step n -> Forall2 Qeq l l'.
Proof.
  revert l' a0 n. induction l as [|x l IH]; intros l' a0 n (L & N) (L' & N').
  - cbn [length] in L. subst n. destruct l'; [constructor|discriminate].
  - destruct l' as [|x' l']; [cbn [length] in *; lia|].
    cbn [length] in L, L'. destruct n as [|n]; [lia|].
    constructor.
    + rewrite (N 0%nat ltac:(lia) : x == _), (N' 0%nat ltac:(lia) : x' == _).
      reflexivity.
    + apply (IH l' (a0 + step) n).
      * split; [lia|]. intros i Hi.
        rewrite (N (S i) ltac:(lia) : nth i l 0 == _).
        rewrite Nat2Z.inj_succ. unfold Z.succ. rewrite inject_Z_plus.
        change (inject_Z 1) with 1. ring.
      * split; [lia|]. intros i Hi.
        rewrite (N' (S i) ltac:(lia) : nth i l' 0 == _).
        rewrite Nat2Z.inj_succ. unfold Z.succ. rewrite inject_Z_plus.
        change (inject_Z 1) with 1. ring.
Qed.

(** X7.  On an axis of at least two equally spaced integers, extending
    below by w and then above by w gives, value for value, the array that
    direction 'both' gives in one call. *)
Theorem extend_array_below_then_above (a : array) (a0 s : Z) (n : nat) (w : Z) :
  integer_axis a a0 s n w -> (2 <= n)%nat -> (0 < w)%Z ->
  exists lower lower_upper two_sided,
    extend_array a w "below" = Ok lower /\
    extend_array lower w "above" = Ok lower_upper /\
    extend_array a w "both" = Ok two_sided /\
    Forall2 Qeq lower_upper two_sided.
Proof.
  intros Ha Hn Hw. pose proof (integer_axis_step Ha) as Hs.
  destruct Ha as (Hu & _).
  destruct (@extend_array_below_uniform a _ _ n w Hu Hs Hn Hw)
    as (lb & Eb & _ & Ub).
  destruct (@extend_array_above_uniform (lb ++ a) _ _
              (Z.to_nat w + n) w Ub Hs ltac:(lia) Hw)
    as (la & Ea & _ & Ua).
  destruct (@extend_array_uniform a _ _ n w Hu Hs Hn Hw) as (both' & E2 & U2).
  exists (lb ++ a), ((lb ++ a) ++ la), both'.
  repeat (split; [assumption|]).
  apply (@is_uniform_same _ _ (inject_Z a0 - inject_Z w * inject_Z s) (inject_Z s)
           (n + 2 * Z.to_nat w)).
  - replace (n + 2 * Z.to_nat w)%nat with (Z.to_nat w + n + Z.to_nat w)%nat by lia.
    exact Ua.
  - exact U2.
Qed.

Lemma extend_array_below_then_above_witness :
  (integer_axis (ints [-2; 0; 2]%Z) (-2) 2 3 2 /\ (2 <= 3)%nat /\ (0 < 2)%Z) /\
  exists lower lower_upper two_sided,
    extend_array (ints [-2; 0; 2]%Z) 2 "below" = Ok lower /\
    extend_array lower 2 "above" = Ok lower_upper /\
    extend_array (ints [-2; 0; 2]%Z) 2 "both" = Ok two_sided /\
    Forall2 Qeq lower_upper two_sided.
Proof.
  assert (H2 : (0 < 2)%Z) by lia.
  assert (H3 : (2 <= 3)%nat) by lia.
  split; [repeat split; try assumption; apply integer_axis_example|].
  exact (@extend_array_below_then_above (ints [-2; 0; 2]%Z) (-2) 2 3 2
           integer_axis_example H3 H2).
Defined.

Close Scope Q_scope.

(* ------------------------------------------------------------------ *)
(** ** [compute_shift] on a moved cloud, when nothing is significant *)





(* ------------------------------------------------------------------ *)
(** ** Nothing to search, nothing to extend *)

Lemma meshgrid_rows_empty_axis (ys xs zs : array) :
  ys = [] \/ xs = [] \/ zs = [] -> meshgrid_rows ys xs zs = [].
Proof.
  intros H. destruct (meshgrid_rows ys xs zs) as [|r l] eqn:E; [reflexivity|].
  assert (Hin : In r (meshgrid_rows ys xs zs)) by (rewrite E; left; reflexivity).
  apply meshgrid_rows_in in Hin. destruct Hin as (Hy & Hx & Hz).
  destruct H as [ -> | [ -> | -> ] ]; contradiction.
Qed.

Lemma setdiff2d_all_ignored (a b : list qrow) :
  (forall r, In r a -> row_mem r b = true) -> setdiff2d a b = [].
Proof.
  intros H. destruct (setdiff2d a b) as [|r l] eqn:E; [reflexivity|].
  assert (Hin : In r (setdiff2d a b)) by (rewrite E; left; reflexivity).
  apply setdiff2d_in in Hin. destruct Hin as (Ha & Hm).
  rewrite (H r Ha) in Hm. discriminate.
Qed.

(** X19.  When there is no candidate to score, because one of the three
    axes is empty or because every row of the grid is among the ignored
    shifts, [get_best_shift] raises [ValueError] (the [argmax] of an empty
    array), whatever the clouds; so does [compute_shift] on a grid with an
    empty axis. *)
Theorem nothing_to_search_raises_ValueError
    (base tr : cloud) (zbase ztr : list zrow) (min_score : option R) (k thresh : R)
    (ys xs zs : array) (ig : option (list qrow)) (yw xw zw : Z) (z_scale : Q) :
  (ys = [] \/ xs = [] \/ zs = [] ->
   get_best_shift base tr thresh ys xs zs ig = Err ValueError /\
   returned (compute_shift zbase ztr min_score k thresh ys xs zs yw xw zw z_scale)
   = Err ValueError) /\
  (forall ignore,
      (forall r, In r (meshgrid_rows ys xs zs) -> row_mem r ignore = true) ->
      get_best_shift base tr thresh ys xs zs (Some ignore) = Err ValueError).
Proof.
  split.
  - intros H. split.
    + apply get_best_shift_nothing_to_search.
      unfold searched_shifts. rewrite (meshgrid_rows_empty_axis H).
      destruct ig; reflexivity.
    + unfold compute_shift. cbn [returned]. unfold search.
      rewrite get_best_shift_nothing_to_search; [reflexivity|].
      cbn [searched_shifts]. apply meshgrid_rows_empty_axis.
      destruct H as [H|[H|H]]; [left|right; left|right; right]; try exact H.
      subst zs. reflexivity.
  - intros ignore H. apply get_best_shift_nothing_to_search.
    cbn [searched_shifts]. apply setdiff2d_all_ignored. exact H.
Qed.

Lemma nothing_to_search_raises_ValueError_witness :
  let grid := meshgrid_rows (ints [0; 1]%Z) (ints [0]%Z) (ints [0]%Z) in
  get_best_shift [Row 0%Q 0%Q 0%Q] [Row 0%Q 0%Q 0%Q] 2
    (ints [0; 1]%Z) [] (ints [0]%Z) None = Err ValueError /\
  get_best_shift [Row 0%Q 0%Q 0%Q] [Row 0%Q 0%Q 0%Q] 2
    (ints [0; 1]%Z) (ints [0]%Z) (ints [0]%Z) (Some grid) = Err ValueError.
Proof.
  cbv zeta. split.
  - destruct (@nothing_to_search_raises_ValueError
                [Row 0%Q 0%Q 0%Q] [Row 0%Q 0%Q 0%Q] [] [] None 5 2
                (ints [0; 1]%Z) [] (ints [0]%Z) None 0 0 0 1%Q) as (H & _).
    apply H. right. left. reflexivity.
  - destruct (@nothing_to_search_raises_ValueError
                [Row 0%Q 0%Q 0%Q] [Row 0%Q 0%Q 0%Q] [] [] None 5 2
                (ints [0; 1]%Z) (ints [0]%Z) (ints [0]%Z) None 0 0 0 1%Q) as (_ & H).
    apply H. intros r Hr. apply row_mem_true. exists r.
    split; [exact Hr|apply row_eqb_refl].
Defined.

(** X20.  A widened search cannot be run over an axis with fewer than two
    values and a count other than 0: when the widened search is due (score
    below min_score, some count positive), the call stops with
    [ValueError] before any candidate is scored again. *)
Theorem widened_search_needs_two_values
    (base tr : cloud) (ms thresh : R) (ys xs zs : array) (yw xw zw : Z)
    (z_scale : Q) (s : qrow) (sc : R) :
  sc < ms -> (0 < Z.max (Z.max yw xw) zw)%Z ->
  ((length ys <= 1)%nat /\ yw <> 0%Z) \/
  ((length xs <= 1)%nat /\ xw <> 0%Z) \/
  ((length zs <= 1)%nat /\ zw <> 0%Z) ->
  after_coarse base tr ms thresh ys xs zs yw xw zw z_scale s sc = Err ValueError.
Proof.
  intros Hlt Hmax Hax. unfold after_coarse. cbv zeta.
  unfold widen_phase. cbn [score y_shifts x_shifts z_shifts].
  replace (widen_wanted sc ms yw xw zw) with true
    by (symmetry; apply widen_wanted_iff; split; assumption).
  destruct (extend_array ys yw "both") as [ys'|e] eqn:Ey.
  2:{ apply extend_array_error in Ey. subst. reflexivity. }
  cbn [bind].
  destruct (extend_array xs xw "both") as [xs'|e] eqn:Ex.
  2:{ apply extend_array_error in Ex. subst. reflexivity. }
  cbn [bind].
  destruct (extend_array zs zw "both") as [zs'|e] eqn:Ez.
  2:{ apply extend_array_error in Ez. subst. reflexivity. }
  exfalso.
  destruct Hax as [(Hl & Hw)|[(Hl & Hw)|(Hl & Hw)]].
  - rewrite (@extend_array_short_array _ _ "both"%string Hl Hw) in Ey. discriminate.
  - rewrite (@extend_array_short_array _ _ "both"%string Hl Hw) in Ex. discriminate.
  - rewrite (@extend_array_short_array _ _ "both"%string Hl Hw) in Ez. discriminate.
Qed.

Lemma widened_search_needs_two_values_witness :
  (1 / 2 < 5 /\ (0 < Z.max (Z.max 2 2) 1)%Z /\
   (length (ints [0]%Z) <= 1)%nat /\ 1%Z <> 0%Z) /\
  after_coarse [Row 0%Q 0%Q 0%Q] [Row 9%Q 9%Q 0%Q] 5 2
    (ints [-2; 0; 2]%Z) (ints [-2; 0; 2]%Z) (ints [0]%Z) 2 2 1 1 zero_row (1 / 2)
  = Err ValueError.
Proof.
  assert (H1 : 1 / 2 < 5) by lra.
  assert (H2 : (0 < Z.max (Z.max 2 2) 1)%Z) by reflexivity.
  assert (H3 : (length (ints [0]%Z) <= 1)%nat) by (simpl; lia).
  assert (H4 : 1%Z <> 0%Z) by discriminate.
  split; [auto|].
  apply widened_search_needs_two_values; try assumption.
  right. right. split; assumption.
Defined.
